(** * promo-deploy: bucket-name derivation and the deploy-website helper

    A shallow embedding of [src/src/platform-stack.ts] ([getWebsiteBucketName],
    the inline viewer-request [handler] and the names the constructor of
    [PlatformStack] hands out) and [src/src/deploy-website.ts]
    ([getRegionFromProfile], [findDistributionsForBucket], [deployWebsite]).

    Conventions of the embedding.
    - A JavaScript string is a [string]: a sequence of code units below 256.
      On such strings [String.prototype.toLowerCase] is the per-character
      map [toLowerCaseChar] (A-Z and the Latin-1 capitals).  Strings with code
      units above 255 are outside the model.
    - [undefined] is [None]; an optional property is an [option].
    - A thrown value is an [Error] object carrying its [message].
    - External calls (the shared-ini loader, the S3 sync client, the
      CloudFront client, [Date.now], [console.log]) take their answers from an
      explicit [World] and leave their calls in a trace of [Event]s. *)

From stdpp Require Import gmap strings list pretty.
From Stdlib Require Import Ascii NArith Lia.

(** ** JavaScript strings *)

Module Js.

(** The character [U+0022], written by its code: it appears in the
    error messages and log lines of the source. *)
Definition dquote : string := String "034"%char EmptyString.

Definition code (c : ascii) : N := N_of_ascii c.

Definition between (lo hi : N) (c : ascii) : bool :=
  ((lo <=? code c) && (code c <=? hi))%N.

(** Code units whose lowercase form differs: [A]-[Z], and in Latin-1
    [U+00C0]-[U+00DE] without the multiplication sign [U+00D7]. *)
Definition isUpper (c : ascii) : bool :=
  between 65 90 c || (between 192 222 c && negb (code c =? 215)%N).

Definition toLowerCaseChar (c : ascii) : ascii :=
  if isUpper c then ascii_of_N (code c + 32) else c.

(** [s.toLowerCase()] *)
Fixpoint toLowerCase (s : string) : string :=
  match s with
  | EmptyString => EmptyString
  | String c rest => String (toLowerCaseChar c) (toLowerCase rest)
  end.

Definition isHyphen (c : ascii) : bool := (code c =? 45)%N.
Definition isDot (c : ascii) : bool := (code c =? 46)%N.

(** The character class [[a-z0-9-]]. *)
Definition isNameChar (c : ascii) : bool :=
  between 97 122 c || between 48 57 c || isHyphen c.

(** [s.replace(/\./g, "-")] *)
Fixpoint replaceDots (s : string) : string :=
  match s with
  | EmptyString => EmptyString
  | String c rest =>
      String (if isDot c then "-"%char else c) (replaceDots rest)
  end.

(** [s.replace(/[^a-z0-9-]/g, "")] *)
Fixpoint removeInvalid (s : string) : string :=
  match s with
  | EmptyString => EmptyString
  | String c rest =>
      if isNameChar c then String c (removeInvalid rest)
      else removeInvalid rest
  end.

(** [s.replace(/-+/g, "-")], scanning left to right; [inRun] says that
    the previous character was a hyphen, so that the current match of
    [-+] has already produced its single replacement hyphen. *)
Fixpoint collapseFrom (inRun : bool) (s : string) : string :=
  match s with
  | EmptyString => EmptyString
  | String c rest =>
      if isHyphen c then
        if inRun then collapseFrom true rest
        else String "-"%char (collapseFrom true rest)
      else String c (collapseFrom false rest)
  end.

Definition collapseHyphens (s : string) : string := collapseFrom false s.

(** The alternative [^-] of [/^-|-$/g]: one hyphen at index 0. *)
Definition dropLeadingHyphen (s : string) : string :=
  match s with
  | String c rest => if isHyphen c then rest else s
  | EmptyString => EmptyString
  end.

(** The alternative [-$]: one hyphen at the last index. *)
Fixpoint dropTrailingHyphen (s : string) : string :=
  match s with
  | EmptyString => EmptyString
  | String c EmptyString => if isHyphen c then EmptyString else s
  | String c rest => String c (dropTrailingHyphen rest)
  end.

(** [s.replace(/^-|-$/g, "")]: the global scan first meets [^-] at index
    0, and later [-$] at the last index if that character is still
    unmatched. *)
Definition trimEdgeHyphens (s : string) : string :=
  dropTrailingHyphen (dropLeadingHyphen s).

(** [s.startsWith(p)] *)
Definition startsWith (s p : string) : bool := String.prefix p s.

(** Truthiness of a possibly undefined string: [undefined] and the
    empty string are falsy. *)
Definition truthy (v : option string) : option string :=
  match v with
  | Some EmptyString | None => None
  | Some s => Some s
  end.

(** [a || b] on possibly undefined strings. *)
Definition or_else (a b : option string) : option string :=
  match truthy a with
  | Some s => Some s
  | None => b
  end.

(** Template-literal interpolation of a possibly undefined string. *)
Definition interpolate (v : option string) : string :=
  match v with Some s => s | None => "undefined" end.

Inductive Error := mkError (message : string).

Definition message (e : Error) : string := let 'mkError m := e in m.

(** How a synchronous call completes. *)
Inductive Completion (A : Type) :=
| Return (a : A)
| Throw (e : Error).
Arguments Return {A} a.
Arguments Throw {A} e.

End Js.

(** ** Bucket-name derivation ([getWebsiteBucketName]) *)

Module BucketName.
Import Js.

(** The chain of replacements bound to [sanitized]. *)
Definition sanitize (domain : string) : string :=
  trimEdgeHyphens
    (collapseHyphens (removeInvalid (replaceDots (toLowerCase domain)))).

Definition tooShortMessage (bucketName : string) : string :=
  "Bucket name too short: " +:+ dquote +:+ bucketName +:+ dquote.

Definition tooLongMessage (bucketName : string) : string :=
  "Bucket name too long: " +:+ dquote +:+ bucketName +:+ dquote +:+ " ("
    +:+ pretty (String.length bucketName) +:+ " chars, max 63)".

Definition getWebsiteBucketName (domain : string) : Completion string :=
  let sanitized := sanitize domain in
  let bucketName := sanitized +:+ "-website" in
  if String.length bucketName <? 3 then
    Throw (mkError (tooShortMessage bucketName))
  else if 63 <? String.length bucketName then
    Throw (mkError (tooLongMessage bucketName))
  else Return bucketName.

(** The two validation errors, told apart by their messages. *)
Definition isTooShortError (e : Error) : bool :=
  String.prefix "Bucket name too short: " (message e).

Definition isTooLongError (e : Error) : bool :=
  String.prefix "Bucket name too long: " (message e).

(** The provider's naming constraints, as the specification lists them. *)
Fixpoint allNameChars (s : string) : bool :=
  match s with
  | EmptyString => true
  | String c rest => isNameChar c && allNameChars rest
  end.

Definition startsWithHyphen (s : string) : bool :=
  match s with
  | String c _ => isHyphen c
  | EmptyString => false
  end.

Fixpoint endsWithHyphen (s : string) : bool :=
  match s with
  | EmptyString => false
  | String c EmptyString => isHyphen c
  | String _ rest => endsWithHyphen rest
  end.

Fixpoint hasDoubleHyphen (s : string) : bool :=
  match s with
  | EmptyString => false
  | String c rest =>
      (isHyphen c && startsWithHyphen rest) || hasDoubleHyphen rest
  end.

Definition validBucketName (s : string) : bool :=
  allNameChars s
  && (3 <=? String.length s) && (String.length s <=? 63)
  && negb (startsWithHyphen s) && negb (endsWithHyphen s)
  && negb (hasDoubleHyphen s).

End BucketName.

(** ** Region resolution ([getRegionFromProfile]) *)

Module Region.
Import Js.

(** What [loadSharedConfigFiles] resolves to: two parsed ini files, each
    a map from profile name to a section of key/value settings.  Lookup
    is by own property; names inherited from [Object.prototype] are
    outside the model. *)
Record SharedConfigFiles := {
  configFile : option (gmap string (gmap string string));
  credentialsFile : option (gmap string (gmap string string));
}.

(** [file?.[profileName]] *)
Definition section (file : option (gmap string (gmap string string)))
    (profileName : string) : option (gmap string string) :=
  file ≫= (.!! profileName).

(** The body of [getRegionFromProfile] after the files are loaded;
    [env] is [process.env].  A section object is truthy whatever it
    holds, so [||] on sections only asks whether the first exists. *)
Definition resolveRegion (configFiles : SharedConfigFiles)
    (env : gmap string string) (profile : string) : string :=
  let profileName := default "default" (truthy (Some profile)) in
  let profileConfig :=
    match section (configFile configFiles) profileName with
    | Some s => Some s
    | None => section (credentialsFile configFiles) profileName
    end in
  match truthy (profileConfig ≫= (.!! "region")) with
  | Some region => region
  | None =>
      default "us-east-1"
        (truthy (or_else (env !! "AWS_REGION") (env !! "AWS_DEFAULT_REGION")))
  end.

(** The section [profileConfig] is bound to. *)
Definition selectedSection (configFiles : SharedConfigFiles)
    (profileName : string) : option (gmap string string) :=
  match section (configFile configFiles) profileName with
  | Some s => Some s
  | None => section (credentialsFile configFiles) profileName
  end.

(** The resolution order in the words of the specification: the first
    non-empty value among the profile's region in the config file, the
    same profile's region in the credentials file, [AWS_REGION],
    [AWS_DEFAULT_REGION] and ["us-east-1"]; an absent profile name
    stands for ["default"]. *)
Fixpoint firstNonEmpty (candidates : list (option string))
    (fallback : string) : string :=
  match candidates with
  | [] => fallback
  | c :: rest =>
      match truthy c with
      | Some s => s
      | None => firstNonEmpty rest fallback
      end
  end.

Definition regionByStatedOrder (configFiles : SharedConfigFiles)
    (env : gmap string string) (profile : option string) : string :=
  let profileName := default "default" (truthy profile) in
  firstNonEmpty
    [ section (configFile configFiles) profileName ≫= (.!! "region");
      section (credentialsFile configFiles) profileName ≫= (.!! "region");
      env !! "AWS_REGION";
      env !! "AWS_DEFAULT_REGION" ]
    "us-east-1".

End Region.

(** ** The CloudFront listing and the scan for matching origins *)

Module CloudFront.
Import Js.

(** The parts of [ListDistributionsCommandOutput] the code reads; every
    property is optional in the SDK's types. *)
Record Origin := { DomainName : option string }.

Record Origins := { Origins_Items : option (list Origin) }.

Record DistributionSummary := {
  Id : option string;
  Origins_ : option Origins;
}.

Record DistributionList := {
  Items : option (list DistributionSummary);
  NextMarker : option string;
}.

Record ListDistributionsCommandOutput := {
  DistributionList_ : option DistributionList;
}.

(** [domainName.startsWith(`${bucketName}.s3`)] with
    [domainName = origin.DomainName || ""] *)
Definition originMatches (bucketName : string) (origin : Origin) : bool :=
  let domainName := default "" (truthy (DomainName origin)) in
  startsWith domainName (bucketName +:+ ".s3").

(** The inner [for] loop over one distribution's origins;
    [distributionIds] is the array being filled.  A push is followed by
    [break]; a match on a distribution without a truthy [Id] pushes
    nothing and the loop goes on. *)
Fixpoint scanOrigins (bucketName : string) (distId : option string)
    (origins : list Origin) (distributionIds : list string) : list string :=
  match origins with
  | [] => distributionIds
  | origin :: rest =>
      if originMatches bucketName origin then
        match truthy distId with
        | Some id => distributionIds ++ [id]
        | None => scanOrigins bucketName distId rest distributionIds
        end
      else scanOrigins bucketName distId rest distributionIds
  end.

(** [dist.Origins?.Items || []] *)
Definition originsOf (dist : DistributionSummary) : list Origin :=
  default [] (Origins_ dist ≫= Origins_Items).

(** The outer [for] loop over the distributions of one page. *)
Fixpoint scanDistributions (bucketName : string)
    (distributions : list DistributionSummary)
    (distributionIds : list string) : list string :=
  match distributions with
  | [] => distributionIds
  | dist :: rest =>
      scanDistributions bucketName rest
        (scanOrigins bucketName (Id dist) (originsOf dist) distributionIds)
  end.

(** [response.DistributionList?.Items || []] *)
Definition distributionsOf (response : ListDistributionsCommandOutput)
    : list DistributionSummary :=
  default [] (DistributionList_ response ≫= Items).

(** [response.DistributionList?.NextMarker] *)
Definition nextMarkerOf (response : ListDistributionsCommandOutput)
    : option string :=
  DistributionList_ response ≫= NextMarker.

End CloudFront.

(** ** Asynchronous code as tasks over an explicit world *)

Module Async.
Import Js Region CloudFront.

(** How an awaited promise ends; [Never] is a call that hangs. *)
Inductive Settled (A : Type) :=
| Fulfilled (a : A)
| RejectedWith (e : Error)
| Never.
Arguments Fulfilled {A} a.
Arguments RejectedWith {A} e.
Arguments Never {A}.

(** [fromIni({ profile })]; no provider is the default credential chain. *)
Inductive CredentialProvider := fromIni (profile : string).

(** The configuration an SDK client is constructed with. *)
Record ClientConfig := {
  region : string;
  credentials : option CredentialProvider;
}.

(** The answers of the collaborators during one run.  The [k]-th
    [ListDistributionsCommand] sent receives the [k]-th entry of
    [listDistributionsResults], likewise for [CreateInvalidationCommand];
    a call beyond the end of its list hangs.  [clock k] is what the [k]-th
    call of [Date.now] returns. *)
Record World := {
  sharedConfigFiles : Settled SharedConfigFiles;
  processEnv : gmap string string;
  syncResult : Settled unit;
  listDistributionsResults : list (Settled ListDistributionsCommandOutput);
  createInvalidationResults : list (Settled unit);
  clock : nat → N;
  clockReads : nat;
}.

(** The calls a run makes on its collaborators, in order. *)
Inductive Event :=
| LoadSharedConfigFiles
| ConsoleLog (line : string)
| Sync (client : ClientConfig) (source target : string) (del : bool)
    (result : Settled unit)
| ListDistributions (client : ClientConfig) (Marker : option string)
| CreateInvalidation (client : ClientConfig)
    (DistributionId CallerReference : string)
    (Quantity : nat) (PathItems : list string).

Record Run (A : Type) := {
  outcome : Settled A;
  world : World;
  trace : list Event;
}.
Arguments outcome {A} r.
Arguments world {A} r.
Arguments trace {A} r.

Definition Task (A : Type) : Type := World → Run A.

Definition taskRet {A} (a : A) : Task A :=
  λ w, {| outcome := Fulfilled a; world := w; trace := [] |}.

(** [await m] followed by [k]: a rejection or a hang of [m] ends the run. *)
Definition taskBind {A B} (k : A → Task B) (m : Task A) : Task B :=
  λ w,
    let r := m w in
    match outcome r with
    | Fulfilled a =>
        let r' := k a (world r) in
        {| outcome := outcome r'; world := world r';
           trace := trace r ++ trace r' |}
    | RejectedWith e =>
        {| outcome := RejectedWith e; world := world r; trace := trace r |}
    | Never => {| outcome := Never; world := world r; trace := trace r |}
    end.

#[global] Instance Task_ret : MRet Task := @taskRet.
#[global] Instance Task_bind : MBind Task := @taskBind.

Definition throw {A} (e : Error) : Task A :=
  λ w, {| outcome := RejectedWith e; world := w; trace := [] |}.

Definition hang {A} : Task A :=
  λ w, {| outcome := Never; world := w; trace := [] |}.

(** [try { body } catch (error) { handler(error) }] *)
Definition tryCatch {A} (body : Task A) (handler : Error → Task A)
    : Task A :=
  λ w,
    let r := body w in
    match outcome r with
    | RejectedWith e =>
        let r' := handler e (world r) in
        {| outcome := outcome r'; world := world r';
           trace := trace r ++ trace r' |}
    | _ => r
    end.

Definition consoleLog (line : string) : Task unit :=
  λ w, {| outcome := Fulfilled (); world := w; trace := [ConsoleLog line] |}.

Definition loadSharedConfigFiles : Task SharedConfigFiles :=
  λ w, {| outcome := sharedConfigFiles w; world := w;
          trace := [LoadSharedConfigFiles] |}.

Definition getProcessEnv : Task (gmap string string) :=
  λ w, {| outcome := Fulfilled (processEnv w); world := w; trace := [] |}.

Definition dateNow : Task N :=
  λ w, {| outcome := Fulfilled (clock w (clockReads w));
          world := {| sharedConfigFiles := sharedConfigFiles w;
                      processEnv := processEnv w;
                      syncResult := syncResult w;
                      listDistributionsResults := listDistributionsResults w;
                      createInvalidationResults := createInvalidationResults w;
                      clock := clock w;
                      clockReads := S (clockReads w) |};
          trace := [] |}.

(** [syncClient.sync(source, target, { del, commandInput })]; the
    [commandInput] callback only chooses a content type per uploaded
    object and is left to the sync client. *)
Definition sync (client : ClientConfig) (source target : string)
    (del : bool) : Task unit :=
  λ w, {| outcome := syncResult w; world := w;
          trace := [Sync client source target del (syncResult w)] |}.

Definition withListResults (w : World)
    (rs : list (Settled ListDistributionsCommandOutput)) : World :=
  {| sharedConfigFiles := sharedConfigFiles w;
     processEnv := processEnv w;
     syncResult := syncResult w;
     listDistributionsResults := rs;
     createInvalidationResults := createInvalidationResults w;
     clock := clock w;
     clockReads := clockReads w |}.

Definition withInvalidationResults (w : World)
    (rs : list (Settled unit)) : World :=
  {| sharedConfigFiles := sharedConfigFiles w;
     processEnv := processEnv w;
     syncResult := syncResult w;
     listDistributionsResults := listDistributionsResults w;
     createInvalidationResults := rs;
     clock := clock w;
     clockReads := clockReads w |}.

(** [cloudFrontClient.send(new ListDistributionsCommand({ Marker }))] *)
Definition sendListDistributions (client : ClientConfig)
    (Marker : option string) : Task ListDistributionsCommandOutput :=
  λ w,
    match listDistributionsResults w with
    | [] => {| outcome := Never; world := w;
               trace := [ListDistributions client Marker] |}
    | r :: rest =>
        {| outcome := r; world := withListResults w rest;
           trace := [ListDistributions client Marker] |}
    end.

(** [cloudFrontClient.send(new CreateInvalidationCommand({...}))] *)
Definition sendCreateInvalidation (client : ClientConfig)
    (DistributionId CallerReference : string) (Quantity : nat)
    (PathItems : list string) : Task unit :=
  λ w,
    let ev := CreateInvalidation client DistributionId CallerReference
                Quantity PathItems in
    match createInvalidationResults w with
    | [] => {| outcome := Never; world := w; trace := [ev] |}
    | r :: rest =>
        {| outcome := r; world := withInvalidationResults w rest;
           trace := [ev] |}
    end.

End Async.

(** ** The deploy helper ([deploy-website.ts]) *)

Module Deploy.
Import Js Region CloudFront Async.

Definition getRegionFromProfile (profile : string) : Task string :=
  configFiles ← loadSharedConfigFiles;
  env ← getProcessEnv;
  mret (resolveRegion configFiles env profile).

(** The [do ... while (marker)] loop.  Each round sends one
    [ListDistributionsCommand]; [fuel] bounds the rounds and is chosen by
    [findDistributionsForBucket] above the number of answers the world
    still holds, so that the loop meets a hanging call before it meets
    the end of its fuel. *)
Fixpoint listLoop (fuel : nat) (cloudFrontClient : ClientConfig)
    (bucketName : string) (marker : option string)
    (distributionIds : list string) : Task (list string) :=
  match fuel with
  | O => hang
  | S fuel' =>
      response ← sendListDistributions cloudFrontClient marker;
      let distributions := distributionsOf response in
      let distributionIds :=
        scanDistributions bucketName distributions distributionIds in
      match truthy (nextMarkerOf response) with
      | Some next =>
          listLoop fuel' cloudFrontClient bucketName (Some next)
            distributionIds
      | None => mret distributionIds
      end
  end.

Definition findDistributionsForBucket (cloudFrontClient : ClientConfig)
    (bucketName : string) : Task (list string) :=
  λ w, listLoop (S (length (listDistributionsResults w)))
         cloudFrontClient bucketName None [] w.

(** [`${Date.now()}-${distributionId}`] *)
Definition callerReference (now : N) (distributionId : string) : string :=
  pretty now +:+ "-" +:+ distributionId.

(** The [for] loop issuing one invalidation per distribution. *)
Fixpoint invalidateEach (cloudFrontClient : ClientConfig)
    (distributionIds : list string) : Task unit :=
  match distributionIds with
  | [] => mret ()
  | distributionId :: rest =>
      now ← dateNow;
      sendCreateInvalidation cloudFrontClient distributionId
        (callerReference now distributionId) 1 ["/*"];;
      consoleLog ("CloudFront invalidation created for " +:+ distributionId);;
      invalidateEach cloudFrontClient rest
  end.

Record DeployWebsiteOptions := {
  bucketName : string;
  profile : option string;
  websitePath : option string;
}.

Definition deployWebsite (options : DeployWebsiteOptions) : Task unit :=
  let bucketName := bucketName options in
  let profile := default "" (profile options) in
  let websitePath := default "website" (websitePath options) in
  region ← getRegionFromProfile profile;
  consoleLog ("Using region: " +:+ region);;
  let credentials :=
    match truthy (Some profile) with
    | Some p => Some (fromIni p)
    | None => None
    end in
  let s3Client := {| region := region; credentials := credentials |} in
  let cloudFrontClient :=
    {| region := region; credentials := credentials |} in
  consoleLog ("Syncing " +:+ dquote +:+ websitePath +:+ dquote
              +:+ " to s3://" +:+ bucketName +:+ "...");;
  tryCatch
    (sync s3Client websitePath ("s3://" +:+ bucketName) true;;
     consoleLog "S3 sync completed successfully")
    (λ error, throw (mkError ("S3 sync failed: " +:+ message error)));;
  distributionIds ← findDistributionsForBucket cloudFrontClient bucketName;
  if length distributionIds =? 0 then
    consoleLog "No CloudFront distributions found for this bucket"
  else
    consoleLog ("Found " +:+ pretty (length distributionIds)
                +:+ " CloudFront distribution(s) linked to bucket");;
    invalidateEach cloudFrontClient distributionIds.

End Deploy.

(** ** What a run shows: observations on listings and traces *)

Module Observe.
Import Js Region CloudFront Async Deploy.

(** What one distribution adds to the result. *)
Definition contribution (bucketName : string) (dist : DistributionSummary)
    : list string :=
  scanOrigins bucketName (Id dist) (originsOf dist) [].

(** What a sequence of pages adds to the result, page by page. *)
Definition pagesIds (bucketName : string)
    (pages : list ListDistributionsCommandOutput) : list string :=
  flat_map (λ page, flat_map (contribution bucketName) (distributionsOf page))
    pages.

(** A page carries a continuation marker when its [NextMarker] is truthy. *)
Definition hasMarker (page : ListDistributionsCommandOutput) : Prop :=
  truthy (nextMarkerOf page) ≠ None.

(** The identifiers of all distributions in the answers of the world. *)
Definition listedIds
    (results : list (Settled ListDistributionsCommandOutput)) : list string :=
  flat_map
    (λ r, match r with
          | Fulfilled page =>
              omap (λ dist, truthy (Id dist)) (distributionsOf page)
          | _ => []
          end)
    results.

Definition isInvalidation (ev : Event) : bool :=
  match ev with CreateInvalidation _ _ _ _ _ => true | _ => false end.

Definition isSync (ev : Event) : bool :=
  match ev with Sync _ _ _ _ _ => true | _ => false end.

Definition isListing (ev : Event) : bool :=
  match ev with ListDistributions _ _ => true | _ => false end.

(** The client an event goes through, if any. *)
Definition eventClient (ev : Event) : option ClientConfig :=
  match ev with
  | Sync client _ _ _ _ => Some client
  | ListDistributions client _ => Some client
  | CreateInvalidation client _ _ _ _ => Some client
  | _ => None
  end.

(** The invalidation requests of a trace, as pairs of distribution
    identifier and caller reference. *)
Definition invalidations (tr : list Event) : list (string * string) :=
  omap (λ ev, match ev with
              | CreateInvalidation _ id ref _ _ => Some (id, ref)
              | _ => None
              end) tr.

Definition callerReferences (tr : list Event) : list string :=
  (invalidations tr).*2.

(** The client configuration [deployWebsite] builds for both clients. *)
Definition clientFor (configFiles : SharedConfigFiles)
    (env : gmap string string) (profile : option string) : ClientConfig :=
  {| region := resolveRegion configFiles env (default "" profile);
     credentials :=
       match truthy (Some (default "" profile)) with
       | Some p => Some (fromIni p)
       | None => None
       end |}.

(** The events of a run up to and including the sync call. *)
Definition prologue (options : DeployWebsiteOptions) (w : World)
    (configFiles : SharedConfigFiles) : list Event :=
  let cfg := clientFor configFiles (processEnv w) (profile options) in
  [ LoadSharedConfigFiles;
    ConsoleLog ("Using region: " +:+ region cfg);
    ConsoleLog ("Syncing " +:+ dquote
                +:+ default "website" (websitePath options) +:+ dquote
                +:+ " to s3://" +:+ bucketName options +:+ "...");
    Sync cfg (default "website" (websitePath options))
      ("s3://" +:+ bucketName options) true (syncResult w) ].

(** What [deployWebsite] does with the discovered identifiers. *)
Definition invalidationPhase (cloudFrontClient : ClientConfig)
    (distributionIds : list string) : Task unit :=
  if length distributionIds =? 0 then
    consoleLog "No CloudFront distributions found for this bucket"
  else
    consoleLog ("Found " +:+ pretty (length distributionIds)
                +:+ " CloudFront distribution(s) linked to bucket");;
    invalidateEach cloudFrontClient distributionIds.


End Observe.

(** ** Concrete inputs *)

Module Examples.
Import Js Region CloudFront Async Deploy.

(** The profile [dev] has a section without a region in the config file
    and a section with a region in the credentials file. *)
Definition splitProfileFiles : SharedConfigFiles :=
  {| configFile := Some {[ "dev" := {[ "output" := "json" ]} ]};
     credentialsFile := Some {[ "dev" := {[ "region" := "eu-west-1" ]} ]} |}.

Definition westEnv : gmap string string := {[ "AWS_REGION" := "us-west-2" ]}.

(** The [default] profile has a region in the config file. *)
Definition defaultProfileFiles : SharedConfigFiles :=
  {| configFile := Some {[ "default" := {[ "region" := "eu-central-1" ]} ]};
     credentialsFile := Some ∅ |}.

Definition originAt (domainName : string) : Origin :=
  {| DomainName := Some domainName |}.

Definition distribution (id : string) (domainNames : list string)
    : DistributionSummary :=
  {| Id := Some id;
     Origins_ := Some {| Origins_Items := Some (originAt <$> domainNames) |} |}.

Definition page (distributions : list DistributionSummary)
    (next : option string) : ListDistributionsCommandOutput :=
  {| DistributionList_ :=
       Some {| Items := Some distributions; NextMarker := next |} |}.

Definition firstPage : ListDistributionsCommandOutput :=
  page [ distribution "E1" ["cdn.example.com"; "mybucket.s3.amazonaws.com";
                            "mybucket.s3.eu-west-1.amazonaws.com"];
         distribution "E2" ["otherbucket.s3.amazonaws.com"] ]
       (Some "marker-1").

Definition lastPage : ListDistributionsCommandOutput :=
  page [ distribution "E3" ["mybucket.s3.amazonaws.com"] ] None.

Definition emptyPage : ListDistributionsCommandOutput := page [] None.

Definition cdnClient : ClientConfig :=
  {| region := "us-east-1"; credentials := None |}.

Definition worldWith (files : SharedConfigFiles)
    (syncAnswer : Settled unit)
    (pages : list ListDistributionsCommandOutput) (now : nat → N) : World :=
  {| sharedConfigFiles := Fulfilled files;
     processEnv := westEnv;
     syncResult := syncAnswer;
     listDistributionsResults := Fulfilled <$> pages;
     createInvalidationResults := [Fulfilled (); Fulfilled (); Fulfilled ()];
     clock := now;
     clockReads := 0 |}.

Definition twoPageWorld : World :=
  worldWith defaultProfileFiles (Fulfilled ()) [firstPage; lastPage]
    (λ k, (1700000000000 + N.of_nat k)%N).

Definition failedSyncWorld : World :=
  worldWith defaultProfileFiles (RejectedWith (mkError "AccessDenied"))
    [firstPage; lastPage] (λ _, 1700000000000%N).

Definition mybucketOptions : DeployWebsiteOptions :=
  {| bucketName := "mybucket"; profile := None; websitePath := None |}.

(** A listing that reports the distribution [E1] on two pages, read by a
    clock that does not advance between the two invalidations. *)
Definition repeatedListingWorld : World :=
  worldWith defaultProfileFiles (Fulfilled ())
    [ page [distribution "E1" ["mybucket.s3.amazonaws.com"]] (Some "m");
      page [distribution "E1" ["mybucket.s3.amazonaws.com"]] None ]
    (λ _, 1700000000000%N).

End Examples.

(** ** The viewer-request function of the stack ([platform-stack.ts]) *)

Module Redirect.
Import Js.

(** The viewer request a CloudFront function receives: [host] is
    [request.headers.host.value]. *)
Record ViewerRequest := {
  method : string;
  uri : string;
  querystring : string;
  host : string;
  otherHeaders : gmap string string;
}.

(** The object the function returns for a redirect. *)
Record RedirectResponse := {
  statusCode : nat;
  statusDescription : string;
  location : string;
}.

Inductive HandlerResult :=
| Respond (response : RedirectResponse)
| Forward (request : ViewerRequest).

(** The body of [handler(event)] in the inline code, with [domainName]
    standing where the template splices it in. *)
Definition handler (domainName : string) (request : ViewerRequest)
    : HandlerResult :=
  if decide (host request = "www." +:+ domainName) then
    Respond {| statusCode := 301;
               statusDescription := "Moved Permanently";
               location := "https://" +:+ domainName +:+ uri request |}
  else Forward request.

(** [domainName] is spliced into two single-quoted literals of the
    generated text; the literals denote the spliced characters when none
    of them is a quote, a backslash or a line terminator. *)
Fixpoint literalSafe (s : string) : bool :=
  match s with
  | EmptyString => true
  | String c rest =>
      negb ((code c =? 39) || (code c =? 92) || (code c =? 10)
            || (code c =? 13))%N
      && literalSafe rest
  end.

(** The function the constructor passes to [FunctionCode.fromInline]; for
    a domain name that is not [literalSafe] the generated text is another
    program, which is not modelled. *)
Definition generatedHandler (domainName : string)
    : option (ViewerRequest → HandlerResult) :=
  if literalSafe domainName then Some (handler domainName) else None.

End Redirect.

(** ** The names the stack constructor hands out ([platform-stack.ts]) *)

Module Stack.
Import Js BucketName Redirect.

Record PlatformStackProps := {
  project : string;
  domain : string;
  cdkBucketName : string;
  tags : option (gmap string string);
}.

(** The value of an output: a string known at synthesis, or an attribute
    of a resource that the provider fills in. *)
Inductive OutputValue :=
| Literal (s : string)
| Attribute (resource attribute : string).

Record Output := {
  outputId : string;
  value : OutputValue;
  exportName : string;
}.

(** What the constructor of [PlatformStack] declares, as far as names and
    strings go.  The constructs of the infrastructure library are taken to
    accept what they are given; their own checks are not modelled. *)
Record PlatformStack := {
  projectTag : option string;
  zoneName : string;
  websiteBucketName : string;
  certificateDomainName : string;
  subjectAlternativeNames : list string;
  redirectFunction : option (ViewerRequest → HandlerResult);
  distributionDomainNames : list string;
  defaultRootObject : string;
  aliasRecordNames : list string;
  deploymentSource : string;
  distributionPaths : list string;
  parameterName : string;
  parameterValue : string;
  outputs : list Output;
}.

(** The constructor, in the order of the source: the bucket name is
    derived after the hosted zone is declared, and a throw of
    [getWebsiteBucketName] leaves the constructor. *)
Definition newPlatformStack (props : PlatformStackProps)
    : Completion PlatformStack :=
  let domainName := domain props in
  let wwwDomainName := "www." +:+ domainName in
  let projectTag :=
    match truthy (tags props ≫= (.!! "project")) with
    | Some _ => None
    | None => Some (project props)
    end in
  match getWebsiteBucketName domainName with
  | Throw e => Throw e
  | Return bucketName =>
      Return
        {| projectTag := projectTag;
           zoneName := domainName;
           websiteBucketName := bucketName;
           certificateDomainName := domainName;
           subjectAlternativeNames := [wwwDomainName];
           redirectFunction := generatedHandler domainName;
           distributionDomainNames := [domainName; wwwDomainName];
           defaultRootObject := "index.html";
           aliasRecordNames := [domainName; wwwDomainName];
           deploymentSource := "website";
           distributionPaths := ["/*"];
           parameterName := "/" +:+ project props +:+ "/root-domain";
           parameterValue := domain props;
           outputs :=
             [ {| outputId := "Step1NameServers";
                  value := Attribute "HostedZone" "hostedZoneNameServers";
                  exportName := project props +:+ "-NameServers" |};
               {| outputId := "Step2HostedZoneId";
                  value := Attribute "HostedZone" "hostedZoneId";
                  exportName := project props +:+ "-HostedZoneId" |};
               {| outputId := "WebsiteURL";
                  value := Literal ("https://" +:+ domainName);
                  exportName := project props +:+ "-WebsiteURL" |};
               {| outputId := "WwwWebsiteURL";
                  value := Literal ("https://" +:+ wwwDomainName);
                  exportName := project props +:+ "-WwwWebsiteURL" |};
               {| outputId := "CloudFrontDistributionId";
                  value := Attribute "Distribution" "distributionId";
                  exportName := project props +:+ "-DistributionId" |};
               {| outputId := "CloudFrontDomainName";
                  value := Attribute "Distribution" "distributionDomainName";
                  exportName := project props +:+ "-CloudFrontDomain" |};
               {| outputId := "S3BucketName";
                  value := Attribute "WebsiteBucket" "bucketName";
                  exportName := project props +:+ "-WebsiteBucket" |} ] |}
  end.

End Stack.

(** ** Expected requests and further concrete inputs *)

Module Expect.
Import Js Region CloudFront Async Deploy Redirect Stack.

(** The requests of an invalidation loop that is never refused: one per
    identifier, tagged with successive readings of the clock from the
    [k]-th on. *)
Fixpoint expectedRequests (clock : nat → N) (k : nat) (ids : list string)
    : list (string * string) :=
  match ids with
  | [] => []
  | id :: rest =>
      (id, callerReference (clock k) id) :: expectedRequests clock (S k) rest
  end.

(** An invalidation request for all paths. *)
Definition isFullPath (ev : Event) : Prop :=
  match ev with
  | CreateInvalidation _ _ _ quantity items => quantity = 1 ∧ items = ["/*"]
  | _ => True
  end.

(** A distribution that discovery records under [id]. *)
Definition recordedAs (bucketName id : string) (dist : DistributionSummary)
    : Prop :=
  truthy (Id dist) = Some id
  ∧ Exists (λ o, originMatches bucketName o = true) (originsOf dist).

Definition rejectedListingWorld : World :=
  {| sharedConfigFiles := Fulfilled Examples.defaultProfileFiles;
     processEnv := Examples.westEnv;
     syncResult := Fulfilled ();
     listDistributionsResults :=
       [Fulfilled Examples.firstPage; RejectedWith (mkError "Throttling")];
     createInvalidationResults := [Fulfilled (); Fulfilled ()];
     clock := λ k, (1700000000000 + N.of_nat k)%N;
     clockReads := 0 |}.

Definition endlessListingWorld : World :=
  {| sharedConfigFiles := Fulfilled Examples.defaultProfileFiles;
     processEnv := Examples.westEnv;
     syncResult := Fulfilled ();
     listDistributionsResults :=
       [Fulfilled Examples.firstPage; Fulfilled Examples.firstPage];
     createInvalidationResults := [];
     clock := λ _, 0%N;
     clockReads := 0 |}.

Definition refusedInvalidationWorld : World :=
  {| sharedConfigFiles := Fulfilled Examples.defaultProfileFiles;
     processEnv := Examples.westEnv;
     syncResult := Fulfilled ();
     listDistributionsResults :=
       [Fulfilled Examples.firstPage; Fulfilled Examples.lastPage];
     createInvalidationResults :=
       [RejectedWith (mkError "AccessDenied"); Fulfilled ()];
     clock := λ k, (1700000000000 + N.of_nat k)%N;
     clockReads := 0 |}.

Definition brokenConfigWorld : World :=
  {| sharedConfigFiles := RejectedWith (mkError "Found invalid profile name");
     processEnv := ∅;
     syncResult := Fulfilled ();
     listDistributionsResults := [Fulfilled Examples.lastPage];
     createInvalidationResults := [Fulfilled ()];
     clock := λ _, 0%N;
     clockReads := 0 |}.

(** The profile [default] has a section without a region in the config
    file and a section with a region in the credentials file. *)
Definition splitDefaultFiles : SharedConfigFiles :=
  {| configFile := Some {[ "default" := {[ "output" := "json" ]} ]};
     credentialsFile :=
       Some {[ "default" := {[ "region" := "eu-west-1" ]} ]} |}.

Definition splitDefaultWorld : World :=
  Examples.worldWith splitDefaultFiles (Fulfilled ()) [Examples.lastPage]
    (λ _, 1700000000000%N).

Definition devOptions : DeployWebsiteOptions :=
  {| bucketName := "mybucket"; profile := Some "dev"; websitePath := None |}.

Definition wwwRequest : ViewerRequest :=
  {| method := "GET"; uri := "/docs/index.html"; querystring := "page=2";
     host := "www.example.com"; otherHeaders := ∅ |}.

Definition exampleProps : PlatformStackProps :=
  {| project := "promo"; domain := "example.com";
     cdkBucketName := "cdk-assets"; tags := None |}.

End Expect.

(** * Properties *)

(** ** Strings *)

Section StringFacts.
Import Js.

Lemma append_nil (t : string) : EmptyString +:+ t = t.
Proof. reflexivity. Qed.

Lemma append_cons (c : ascii) (s t : string) :
  String c s +:+ t = String c (s +:+ t).
Proof. reflexivity. Qed.

Lemma length_append (s t : string) :
  String.length (s +:+ t) = String.length s + String.length t.
Proof.
  induction s as [|c s IH]; [reflexivity|].
  rewrite append_cons. simpl. now rewrite IH.
Qed.

Lemma append_assoc (s t u : string) :
  (s +:+ t) +:+ u = s +:+ (t +:+ u).
Proof.
  induction s as [|c s IH]; [reflexivity|].
  rewrite !append_cons. now rewrite IH.
Qed.

Lemma prefix_iff (p s : string) :
  String.prefix p s = true ↔ ∃ suffix, s = p +:+ suffix.
Proof.
  revert s; induction p as [|a p IH]; intros s.
  - destruct s; simpl; (split; [intros _; eexists; reflexivity | reflexivity]).
  - destruct s as [|b s]; simpl.
    + split; [discriminate|].
      intros [suffix H]. rewrite append_cons in H. discriminate.
    + destruct (ascii_dec a b) as [->|Hne].
      * rewrite IH. split; intros [suffix H]; exists suffix;
          rewrite append_cons in *; congruence.
      * split; [discriminate|].
        intros [suffix H]. rewrite append_cons in H. congruence.
Qed.

Lemma startsWith_iff (s p : string) :
  startsWith s p = true ↔ ∃ suffix, s = p +:+ suffix.
Proof. apply prefix_iff. Qed.

End StringFacts.

(** ** Bucket-name derivation *)

Section BucketNameFacts.
Import Js BucketName.

Lemma allNameChars_append (s t : string) :
  allNameChars (s +:+ t) = allNameChars s && allNameChars t.
Proof.
  induction s as [|c s IH]; [reflexivity|].
  rewrite append_cons. simpl. now rewrite IH, andb_assoc.
Qed.

Lemma allNameChars_removeInvalid (s : string) :
  allNameChars (removeInvalid s) = true.
Proof.
  induction s as [|c s IH]; simpl; [reflexivity|].
  destruct (isNameChar c) eqn:Hc; simpl; [now rewrite Hc | exact IH].
Qed.

Lemma allNameChars_collapseFrom (b : bool) (s : string) :
  allNameChars s = true → allNameChars (collapseFrom b s) = true.
Proof.
  revert b; induction s as [|c s IH]; intros b; simpl; [reflexivity|].
  intros [Hc Hs]%andb_true_iff.
  destruct (isHyphen c); [destruct b|].
  - now apply IH.
  - change (allNameChars (collapseFrom true s) = true). now apply IH.
  - simpl. rewrite Hc. now apply IH.
Qed.

Lemma allNameChars_dropLeadingHyphen (s : string) :
  allNameChars s = true → allNameChars (dropLeadingHyphen s) = true.
Proof.
  destruct s as [|c s]; simpl; [reflexivity|].
  intros H. destruct (isHyphen c); [|exact H].
  now apply andb_true_iff in H as [_ H].
Qed.

Lemma allNameChars_dropTrailingHyphen (s : string) :
  allNameChars s = true → allNameChars (dropTrailingHyphen s) = true.
Proof.
  induction s as [|c s IH]; [reflexivity|].
  destruct s as [|c' s].
  - simpl. destruct (isHyphen c); [reflexivity | exact id].
  - intros [Hc Hs]%andb_true_iff.
    change (allNameChars (String c (dropTrailingHyphen (String c' s))) = true).
    simpl allNameChars at 1. rewrite Hc. simpl. exact (IH Hs).
Qed.

Lemma allNameChars_sanitize (domain : string) :
  allNameChars (sanitize domain) = true.
Proof.
  unfold sanitize, trimEdgeHyphens, collapseHyphens.
  apply allNameChars_dropTrailingHyphen, allNameChars_dropLeadingHyphen,
    allNameChars_collapseFrom, allNameChars_removeInvalid.
Qed.

(** After a collapse no two hyphens are adjacent, and a collapse that
    starts inside a run does not start with a hyphen. *)
Lemma collapseFrom_no_double (b : bool) (s : string) :
  hasDoubleHyphen (collapseFrom b s) = false
  ∧ (b = true → startsWithHyphen (collapseFrom b s) = false).
Proof.
  revert b; induction s as [|c s IH]; intros b; simpl; [now split|].
  destruct (isHyphen c) eqn:Hc.
  - destruct b.
    + apply IH.
    + destruct (IH true) as [Hd Hs]. split; [|discriminate].
      simpl. rewrite Hd, (Hs eq_refl). reflexivity.
  - destruct (IH false) as [Hd _]. split.
    + simpl. now rewrite Hc, Hd.
    + intros _. simpl. exact Hc.
Qed.

Lemma dropLeadingHyphen_no_double (s : string) :
  hasDoubleHyphen s = false →
  hasDoubleHyphen (dropLeadingHyphen s) = false
  ∧ startsWithHyphen (dropLeadingHyphen s) = false.
Proof.
  destruct s as [|c s]; simpl; [now split|].
  intros [H1 H2]%orb_false_iff.
  destruct (isHyphen c) eqn:Hc; simpl.
  - now split.
  - now rewrite Hc, H2.
Qed.

Lemma dropTrailingHyphen_start (s : string) :
  startsWithHyphen s = false →
  startsWithHyphen (dropTrailingHyphen s) = false.
Proof.
  destruct s as [|c [|c' s]]; simpl; [reflexivity| |exact id].
  intros H. rewrite H. exact H.
Qed.

Lemma dropTrailingHyphen_no_double (s : string) :
  hasDoubleHyphen s = false →
  hasDoubleHyphen (dropTrailingHyphen s) = false
  ∧ endsWithHyphen (dropTrailingHyphen s) = false.
Proof.
  induction s as [|c s IH]; [now split|].
  destruct s as [|c' s].
  - simpl. destruct (isHyphen c) eqn:Hc; simpl; rewrite ?Hc; now split.
  - intros H. simpl in H. apply orb_false_iff in H as [H1 H2].
    destruct (IH H2) as [Hd He].
    change (dropTrailingHyphen (String c (String c' s)))
      with (String c (dropTrailingHyphen (String c' s))).
    destruct (dropTrailingHyphen (String c' s)) as [|d t] eqn:Hdrop.
    + (* the rest was a single hyphen, so [c] is not one *)
      destruct s as [|c'' s]; simpl in Hdrop.
      * destruct (isHyphen c') eqn:Hc'; [|discriminate].
        rewrite andb_true_r in H1. simpl. rewrite H1. now split.
      * discriminate.
    + assert (d = c') as ->.
      { destruct s; simpl in Hdrop;
          [destruct (isHyphen c'); congruence | congruence]. }
      split.
      * simpl. simpl in Hd. now rewrite H1, Hd.
      * exact He.
Qed.

Lemma sanitize_shape (domain : string) :
  hasDoubleHyphen (sanitize domain) = false
  ∧ startsWithHyphen (sanitize domain) = false
  ∧ endsWithHyphen (sanitize domain) = false.
Proof.
  unfold sanitize, trimEdgeHyphens, collapseHyphens.
  set (s := removeInvalid _).
  destruct (collapseFrom_no_double false s) as [H0 _].
  destruct (dropLeadingHyphen_no_double _ H0) as [H1 H2].
  destruct (dropTrailingHyphen_no_double _ H1) as [H3 H4].
  auto using dropTrailingHyphen_start.
Qed.

Lemma hasDoubleHyphen_append (s t : string) :
  hasDoubleHyphen s = false → endsWithHyphen s = false →
  hasDoubleHyphen t = false → hasDoubleHyphen (s +:+ t) = false.
Proof.
  intros Hs He Ht. induction s as [|c s IH]; [exact Ht|].
  rewrite append_cons. simpl in Hs. apply orb_false_iff in Hs as [H1 H2].
  destruct s as [|c' s].
  - simpl in He. rewrite append_nil. simpl. now rewrite He, Ht.
  - specialize (IH H2 He). rewrite append_cons in *.
    simpl in H1. simpl. simpl in IH. now rewrite H1, IH.
Qed.

Lemma endsWithHyphen_append (s t : string) :
  t ≠ EmptyString → endsWithHyphen (s +:+ t) = endsWithHyphen t.
Proof.
  intros Ht. induction s as [|c s IH]; [reflexivity|].
  rewrite append_cons. simpl. rewrite IH.
  destruct (s +:+ t) eqn:E; [|reflexivity].
  destruct s; [rewrite append_nil in E; contradiction|].
  rewrite append_cons in E. discriminate.
Qed.

Lemma startsWithHyphen_append (s t : string) :
  s ≠ EmptyString → startsWithHyphen (s +:+ t) = startsWithHyphen s.
Proof. destruct s; [contradiction | reflexivity]. Qed.

(** The result of [getWebsiteBucketName] by cases on the length of the
    suffixed name; the suffix alone has 8 characters, so the too-short
    branch is never taken. *)
Lemma getWebsiteBucketName_cases (domain : string) :
  getWebsiteBucketName domain =
    let bucketName := sanitize domain +:+ "-website" in
    if 63 <? String.length bucketName
    then Throw (mkError (tooLongMessage bucketName))
    else Return bucketName.
Proof.
  unfold getWebsiteBucketName. cbv zeta.
  destruct (String.length (sanitize domain +:+ "-website") <? 3) eqn:E;
    [|reflexivity].
  apply Nat.ltb_lt in E. rewrite length_append in E. simpl in E. lia.
Qed.

(** Whenever the sanitized form is not empty, a returned name meets the
    naming constraints. *)
Lemma getWebsiteBucketName_valid (domain name : string) :
  sanitize domain ≠ EmptyString →
  getWebsiteBucketName domain = Return name →
  validBucketName name = true.
Proof.
  intros Hne. rewrite getWebsiteBucketName_cases. cbv zeta.
  destruct (63 <? _) eqn:E; [discriminate|]. intros [= <-].
  apply Nat.ltb_ge in E.
  destruct (sanitize_shape domain) as (Hd & Hs & He).
  unfold validBucketName.
  rewrite allNameChars_append, allNameChars_sanitize.
  rewrite startsWithHyphen_append, Hs by exact Hne.
  rewrite endsWithHyphen_append by discriminate.
  rewrite hasDoubleHyphen_append by (assumption || reflexivity).
  replace (String.length (sanitize domain +:+ "-website") <=? 63)
    with true by (symmetry; now apply Nat.leb_le).
  replace (3 <=? String.length (sanitize domain +:+ "-website"))
    with true
    by (symmetry; apply Nat.leb_le; rewrite length_append; simpl; lia).
  reflexivity.
Qed.

(** C9: [getWebsiteBucketName "example.com"] is ["example-com-website"],
    [getWebsiteBucketName "www.My-Site.org"] is
    ["www-my-site-org-website"], and for every domain the function is
    deterministic: two calls on the same domain complete the same way. *)
Theorem getWebsiteBucketName_examples_and_determinism :
  getWebsiteBucketName "example.com" = Return "example-com-website"
  ∧ getWebsiteBucketName "www.My-Site.org" = Return "www-my-site-org-website"
  ∧ ∀ domain first second,
      getWebsiteBucketName domain = first →
      getWebsiteBucketName domain = second →
      first = second.
Proof.
  split; [vm_compute; reflexivity|].
  split; [vm_compute; reflexivity|].
  intros domain first second <- <-. reflexivity.
Qed.

Lemma getWebsiteBucketName_determinism_witness :
  getWebsiteBucketName "www.My-Site.org"
  = Return "www-my-site-org-website".
Proof.
  apply (proj2 (proj2 getWebsiteBucketName_examples_and_determinism)
           "www.My-Site.org");
    [reflexivity | vm_compute; reflexivity].
Defined.

(** C2, as stated, fails: the domain ["a"] has a sanitized form of one
    character, shorter than 2, and is not rejected. *)
Lemma one_character_domain_is_not_rejected :
  String.length (sanitize "a") < 2
  ∧ getWebsiteBucketName "a" = Return "a-website".
Proof. split; [vm_compute; lia | vm_compute; reflexivity]. Qed.

(** C2, amended: a domain whose sanitized form is not empty and, with the
    ["-website"] suffix, at most 63 characters long is accepted with
    exactly that suffixed name (a one-character sanitized form included);
    a domain whose suffixed form exceeds 63 characters fails with the
    too-long error; and a name is returned only when it is the full
    suffixed form within the bound, never a shortened or repaired one. *)
Theorem getWebsiteBucketName_length_outcomes (domain : string) :
  (sanitize domain ≠ EmptyString →
   String.length (sanitize domain +:+ "-website") ≤ 63 →
   getWebsiteBucketName domain = Return (sanitize domain +:+ "-website"))
  ∧ (63 < String.length (sanitize domain +:+ "-website") →
     getWebsiteBucketName domain
       = Throw (mkError (tooLongMessage (sanitize domain +:+ "-website")))
     ∧ isTooLongError
         (mkError (tooLongMessage (sanitize domain +:+ "-website"))) = true)
  ∧ (∀ name, getWebsiteBucketName domain = Return name →
       name = sanitize domain +:+ "-website"
       ∧ String.length name ≤ 63).
Proof.
  rewrite getWebsiteBucketName_cases. cbv zeta.
  destruct (63 <? _) eqn:E;
    [apply Nat.ltb_lt in E | apply Nat.ltb_ge in E].
  - split; [intros _ H; lia|]. split; [|discriminate].
    intros _. split; [reflexivity|].
    unfold isTooLongError, tooLongMessage. simpl message.
    apply prefix_iff. eexists. reflexivity.
  - split; [reflexivity|]. split; [intros H; lia|].
    intros name [= <-]. split; [reflexivity | exact E].
Qed.

Lemma getWebsiteBucketName_length_outcomes_witness :
  getWebsiteBucketName "a" = Return "a-website"
  ∧ isTooLongError
      (mkError (tooLongMessage
         (sanitize
            "a.domain.name.that.is.much.too.long.to.fit.the.limit.of.sixty.three"
          +:+ "-website"))) = true.
Proof.
  split.
  - apply (proj1 (getWebsiteBucketName_length_outcomes "a"));
      [vm_compute; discriminate | vm_compute; lia].
  - apply (proj1 (proj2 (getWebsiteBucketName_length_outcomes
      "a.domain.name.that.is.much.too.long.to.fit.the.limit.of.sixty.three"))).
    vm_compute. lia.
Defined.

(** C3 at the domains whose sanitized form is empty: the code returns
    ["-website"], which begins with a hyphen and so breaks the naming
    constraints the claim promises. *)
Theorem empty_sanitized_form_yields_leading_hyphen (domain : string) :
  sanitize domain = EmptyString →
  getWebsiteBucketName domain = Return "-website"
  ∧ startsWithHyphen "-website" = true
  ∧ validBucketName "-website" = false.
Proof.
  intros H. rewrite getWebsiteBucketName_cases, H.
  split; [reflexivity|]. split; reflexivity.
Qed.

Lemma empty_sanitized_form_witness :
  getWebsiteBucketName "" = Return "-website"
  ∧ startsWithHyphen "-website" = true
  ∧ validBucketName "-website" = false.
Proof.
  apply (empty_sanitized_form_yields_leading_hyphen "").
  vm_compute. reflexivity.
Defined.

End BucketNameFacts.

(** ** Region resolution *)

Section RegionFacts.
Import Js Region Examples.

(** An empty profile name stands for the profile [default]. *)
Lemma resolveRegion_empty_profile (configFiles : SharedConfigFiles)
    (env : gmap string string) :
  resolveRegion configFiles env "" = resolveRegion configFiles env "default".
Proof. reflexivity. Qed.

(** A non-empty region in the selected section wins over the
    environment. *)
Lemma resolveRegion_profile_first (configFiles : SharedConfigFiles)
    (env : gmap string string) (profileName : string)
    (sec : gmap string string) (r : string) :
  profileName ≠ EmptyString →
  selectedSection configFiles profileName = Some sec →
  truthy (sec !! "region") = Some r →
  resolveRegion configFiles env profileName = r.
Proof.
  intros Hne Hsec Hr. unfold resolveRegion.
  replace (default "default" (truthy (Some profileName))) with profileName
    by (destruct profileName; [contradiction | reflexivity]).
  unfold selectedSection in Hsec. rewrite Hsec. simpl. now rewrite Hr.
Qed.

(** The code follows the stated order whenever the config file has no
    section for the profile, or has one with a non-empty region. *)
Lemma resolveRegion_follows_stated_order (configFiles : SharedConfigFiles)
    (env : gmap string string) (profile : string) :
  let profileName := default "default" (truthy (Some profile)) in
  section (configFile configFiles) profileName = None
  ∨ truthy (section (configFile configFiles) profileName ≫= (.!! "region"))
    ≠ None →
  resolveRegion configFiles env profile
  = regionByStatedOrder configFiles env (Some profile).
Proof.
  intros profileName H. unfold resolveRegion, regionByStatedOrder.
  fold profileName. simpl firstNonEmpty. unfold or_else.
  destruct H as [H|H].
  - rewrite H. simpl.
    destruct (truthy (section (credentialsFile configFiles) profileName
                      ≫= _)); [reflexivity|].
    destruct (truthy (env !! "AWS_REGION")) as [a|] eqn:Ha.
    + simpl. destruct a; [destruct (env !! "AWS_REGION") as [[|??]|];
        discriminate | reflexivity].
    + reflexivity.
  - destruct (section (configFile configFiles) profileName) as [sec|] eqn:Hs;
      [|now simpl in H].
    simpl in *. destruct (truthy (sec !! "region")); [reflexivity|].
    contradiction.
Qed.

(** C1 at a profile that has a section without a region in the config
    file and a region in the credentials file: the code never reads the
    credentials file and falls through to [AWS_REGION], whereas the
    stated order yields the region of the credentials file. *)
Theorem region_in_credentials_file_is_skipped :
  resolveRegion splitProfileFiles westEnv "dev" = "us-west-2"
  ∧ regionByStatedOrder splitProfileFiles westEnv (Some "dev") = "eu-west-1".
Proof. split; vm_compute; reflexivity. Qed.

End RegionFacts.

(** ** Distribution discovery *)

Section DiscoveryFacts.
Import Js Region CloudFront Async Deploy Observe Examples.

Lemma originMatches_iff (bucketName : string) (origin : Origin) :
  originMatches bucketName origin = true
  ↔ ∃ suffix,
      default "" (truthy (DomainName origin))
      = bucketName +:+ ".s3" +:+ suffix.
Proof.
  unfold originMatches. rewrite startsWith_iff.
  split; intros [suffix H]; exists suffix; rewrite H;
    [|symmetry]; apply append_assoc.
Qed.

Lemma scanOrigins_app (bucketName : string) (distId : option string)
    (origins : list Origin) (distributionIds : list string) :
  scanOrigins bucketName distId origins distributionIds
  = distributionIds ++ scanOrigins bucketName distId origins [].
Proof.
  induction origins as [|origin rest IH]; simpl.
  - now rewrite app_nil_r.
  - destruct (originMatches bucketName origin); [|exact IH].
    destruct (truthy distId); [reflexivity | exact IH].
Qed.

(** Origins before the first match are passed over. *)
Lemma scanOrigins_skip (bucketName : string) (distId : option string)
    (before rest : list Origin) (distributionIds : list string) :
  Forall (λ o, originMatches bucketName o = false) before →
  scanOrigins bucketName distId (before ++ rest) distributionIds
  = scanOrigins bucketName distId rest distributionIds.
Proof.
  induction 1 as [|o before Ho _ IH]; [reflexivity|].
  simpl. now rewrite Ho.
Qed.

Lemma scanOrigins_at_most_one (bucketName : string) (distId : option string)
    (origins : list Origin) :
  scanOrigins bucketName distId origins [] = []
  ∨ ∃ id, truthy distId = Some id
          ∧ scanOrigins bucketName distId origins [] = [id].
Proof.
  induction origins as [|origin rest IH]; simpl; [now left|].
  destruct (originMatches bucketName origin); [|exact IH].
  destruct (truthy distId) as [id|] eqn:E; [|exact IH].
  right. now exists id.
Qed.

Lemma scanDistributions_app (bucketName : string)
    (distributions : list DistributionSummary)
    (distributionIds : list string) :
  scanDistributions bucketName distributions distributionIds
  = distributionIds ++ flat_map (contribution bucketName) distributions.
Proof.
  revert distributionIds.
  induction distributions as [|dist rest IH]; intros ids; simpl.
  - now rewrite app_nil_r.
  - rewrite IH, scanOrigins_app, <- app_assoc. reflexivity.
Qed.

Lemma pagesIds_app (bucketName : string)
    (pages1 pages2 : list ListDistributionsCommandOutput) :
  pagesIds bucketName (pages1 ++ pages2)
  = pagesIds bucketName pages1 ++ pagesIds bucketName pages2.
Proof. apply flat_map_app. Qed.

(** One round of the loop, by cases on the next answer of the world. *)
Lemma listLoop_round (fuel : nat) (client : ClientConfig)
    (bucketName : string) (marker : option string) (ids : list string)
    (w : World) :
  listLoop (S fuel) client bucketName marker ids w =
    let ev := ListDistributions client marker in
    match listDistributionsResults w with
    | [] => {| outcome := Never; world := w; trace := [ev] |}
    | Fulfilled page :: rest =>
        let ids' := scanDistributions bucketName (distributionsOf page) ids in
        match truthy (nextMarkerOf page) with
        | Some next =>
            let r := listLoop fuel client bucketName (Some next) ids'
                       (withListResults w rest) in
            {| outcome := outcome r; world := world r;
               trace := ev :: trace r |}
        | None => {| outcome := Fulfilled ids';
                     world := withListResults w rest; trace := [ev] |}
        end
    | RejectedWith e :: rest =>
        {| outcome := RejectedWith e; world := withListResults w rest;
           trace := [ev] |}
    | Never :: rest =>
        {| outcome := Never; world := withListResults w rest;
           trace := [ev] |}
    end.
Proof.
  cbn [listLoop]. unfold mbind, Task_bind, taskBind, sendListDistributions.
  destruct (listDistributionsResults w) as [|[page|e|] rest];
    try reflexivity.
  cbn [outcome world trace]. cbv zeta.
  destruct (truthy (nextMarkerOf page)); reflexivity.
Qed.

(** Fuel above the number of answers the world still holds is never
    used up: the loop then runs the same whatever the fuel, so the bound
    chosen by [findDistributionsForBucket] cuts no run short. *)
Lemma listLoop_fuel_irrelevant (client : ClientConfig) (bucketName : string)
    (fuel1 : nat) :
  ∀ fuel2 marker ids w,
    length (listDistributionsResults w) < fuel1 →
    length (listDistributionsResults w) < fuel2 →
    listLoop fuel1 client bucketName marker ids w
    = listLoop fuel2 client bucketName marker ids w.
Proof.
  induction fuel1 as [|fuel1 IH]; intros fuel2 marker ids w H1 H2; [lia|].
  destruct fuel2 as [|fuel2]; [lia|].
  rewrite !listLoop_round. cbv zeta.
  destruct (listDistributionsResults w) as [|[page|e|] rest] eqn:Hw;
    try reflexivity.
  destruct (truthy (nextMarkerOf page)); [|reflexivity].
  simpl in H1, H2.
  rewrite (IH fuel2) by (simpl; lia). reflexivity.
Qed.

(** The loop along a chain of pages: every page but the last carries a
    marker, the last carries none, and the fuel covers the chain. *)
Lemma listLoop_chain (client : ClientConfig) (bucketName : string)
    (pages : list ListDistributionsCommandOutput)
    (last : ListDistributionsCommandOutput)
    (rest : list (Settled ListDistributionsCommandOutput)) :
  Forall hasMarker pages →
  truthy (nextMarkerOf last) = None →
  ∀ fuel marker ids w,
    length pages < fuel →
    listDistributionsResults w = (Fulfilled <$> pages ++ [last]) ++ rest →
    let r := listLoop fuel client bucketName marker ids w in
    outcome r = Fulfilled (ids ++ pagesIds bucketName (pages ++ [last]))
    ∧ world r = withListResults w rest
    ∧ trace r
      = ListDistributions client marker
        :: ((λ p, ListDistributions client (truthy (nextMarkerOf p)))
            <$> pages).
Proof.
  intros Hpages Hlast.
  induction Hpages as [|p pages Hp _ IH]; intros fuel marker ids w Hfuel Hw;
    (destruct fuel as [|fuel]; [simpl in Hfuel; lia|]);
    cbv zeta; rewrite listLoop_round, Hw; cbn [fmap list_fmap app]; cbv zeta.
  - rewrite Hlast. cbn [outcome world trace].
    rewrite scanDistributions_app. cbn [pagesIds flat_map app].
    rewrite app_nil_r. auto.
  - unfold hasMarker in Hp.
    destruct (truthy (nextMarkerOf p)) as [next|] eqn:Hnext; [|contradiction].
    cbn [outcome world trace].
    destruct (IH fuel (Some next)
                (scanDistributions bucketName (distributionsOf p) ids)
                (withListResults w ((Fulfilled <$> pages ++ [last]) ++ rest)))
      as (Ho & Hwd & Ht); [simpl in Hfuel; lia | reflexivity |].
    cbv zeta in Ho, Hwd, Ht. rewrite Ho, Hwd, Ht.
    rewrite scanDistributions_app, <- app_assoc.
    cbn [pagesIds flat_map app]. auto.
Qed.

Lemma findDistributionsForBucket_chain (client : ClientConfig)
    (bucketName : string) (pages : list ListDistributionsCommandOutput)
    (last : ListDistributionsCommandOutput)
    (rest : list (Settled ListDistributionsCommandOutput)) (w : World) :
  Forall hasMarker pages →
  truthy (nextMarkerOf last) = None →
  listDistributionsResults w = (Fulfilled <$> pages ++ [last]) ++ rest →
  let r := findDistributionsForBucket client bucketName w in
  outcome r = Fulfilled (pagesIds bucketName (pages ++ [last]))
  ∧ world r = withListResults w rest
  ∧ trace r
    = ListDistributions client None
      :: ((λ p, ListDistributions client (truthy (nextMarkerOf p)))
          <$> pages).
Proof.
  intros Hpages Hlast Hw. unfold findDistributionsForBucket.
  apply (listLoop_chain client bucketName pages last rest Hpages Hlast
           _ None [] w); [|exact Hw].
  rewrite Hw, length_app, length_fmap, length_app. simpl. lia.
Qed.

Lemma contribution_no_match (bucketName : string)
    (dist : DistributionSummary) :
  Forall (λ o, originMatches bucketName o = false) (originsOf dist) →
  contribution bucketName dist = [].
Proof.
  unfold contribution. intros H.
  rewrite <- (app_nil_r (originsOf dist)). now rewrite scanOrigins_skip.
Qed.

Lemma pagesIds_no_match (bucketName : string)
    (pages : list ListDistributionsCommandOutput) :
  Forall (λ page,
    Forall (λ dist,
      Forall (λ o, originMatches bucketName o = false) (originsOf dist))
      (distributionsOf page)) pages →
  pagesIds bucketName pages = [].
Proof.
  induction 1 as [|page pages Hpage _ IH]; [reflexivity|].
  unfold pagesIds in *. simpl. rewrite IH, app_nil_r.
  induction Hpage as [|dist dists Hd _ IHd]; [reflexivity|].
  simpl. now rewrite contribution_no_match, IHd.
Qed.

Example originMatches_examples :
  originMatches "mybucket" (originAt "mybucket.s3.amazonaws.com") = true
  ∧ originMatches "mybucket" (originAt "otherbucket.s3.amazonaws.com") = false
  ∧ originMatches "mybucket" (originAt "MyBucket.s3.amazonaws.com") = false
  ∧ originMatches "mybucket" (originAt "www.mybucket.s3.amazonaws.com") = false
  ∧ originMatches "mybucket" {| DomainName := None |} = false.
Proof. repeat split; vm_compute; reflexivity. Qed.

(** C4: an origin matches exactly when its domain name begins with
    [bucketName] followed by [".s3"], compared character by character; a
    distribution contributes at most one identifier, its own, recorded at
    its first matching origin whatever origins follow; a distribution
    with no matching origin contributes nothing; the loop over the
    distributions of a page appends these contributions in order; over a
    terminating listing [findDistributionsForBucket] is fulfilled with the
    contributions of all distributions of all pages in order; and when no
    distribution matches, that is the empty list. *)
Theorem discovery_matching_rule (bucketName : string) :
  (∀ origin,
     originMatches bucketName origin = true
     ↔ ∃ suffix, default "" (truthy (DomainName origin))
                 = bucketName +:+ ".s3" +:+ suffix)
  ∧ (∀ dist,
       contribution bucketName dist = []
       ∨ ∃ id, truthy (Id dist) = Some id
               ∧ contribution bucketName dist = [id])
  ∧ (∀ dist before origin after id,
       originsOf dist = before ++ origin :: after →
       Forall (λ o, originMatches bucketName o = false) before →
       originMatches bucketName origin = true →
       truthy (Id dist) = Some id →
       contribution bucketName dist = [id])
  ∧ (∀ dist,
       Forall (λ o, originMatches bucketName o = false) (originsOf dist) →
       contribution bucketName dist = [])
  ∧ (∀ distributions distributionIds,
       scanDistributions bucketName distributions distributionIds
       = distributionIds
         ++ flat_map
              (λ dist,
                 scanOrigins bucketName (Id dist) (originsOf dist) [])
              distributions)
  ∧ (∀ client pages last rest w,
       Forall hasMarker pages →
       truthy (nextMarkerOf last) = None →
       listDistributionsResults w = (Fulfilled <$> pages ++ [last]) ++ rest →
       outcome (findDistributionsForBucket client bucketName w)
       = Fulfilled
           (flat_map
              (λ page,
                 flat_map (contribution bucketName) (distributionsOf page))
              (pages ++ [last])))
  ∧ (∀ client pages last rest w,
       Forall hasMarker pages →
       truthy (nextMarkerOf last) = None →
       listDistributionsResults w = (Fulfilled <$> pages ++ [last]) ++ rest →
       Forall (λ page,
         Forall (λ dist,
           Forall (λ o, originMatches bucketName o = false) (originsOf dist))
           (distributionsOf page)) (pages ++ [last]) →
       outcome (findDistributionsForBucket client bucketName w)
       = Fulfilled []).
Proof.
  split; [apply originMatches_iff|].
  split; [intros dist; apply scanOrigins_at_most_one|].
  split.
  { intros dist before origin after id Ho Hbefore Hm Hid.
    unfold contribution. rewrite Ho, scanOrigins_skip by exact Hbefore.
    simpl. now rewrite Hm, Hid. }
  split; [apply contribution_no_match|].
  split; [apply scanDistributions_app|].
  split.
  { intros client pages last rest w Hpages Hlast Hw.
    destruct (findDistributionsForBucket_chain client bucketName pages last
                rest w Hpages Hlast Hw) as (Ho & _ & _).
    exact Ho. }
  intros client pages last rest w Hpages Hlast Hw Hnone.
  destruct (findDistributionsForBucket_chain client bucketName pages last
              rest w Hpages Hlast Hw) as (Ho & _ & _).
  cbv zeta in Ho. rewrite Ho. now rewrite pagesIds_no_match.
Qed.

Lemma discovery_matching_rule_witness :
  originMatches "mybucket" (originAt "mybucket.s3.amazonaws.com") = true
  ∧ contribution "mybucket"
      (distribution "E1" ["cdn.example.com"; "mybucket.s3.amazonaws.com";
                          "mybucket.s3.eu-west-1.amazonaws.com"])
    = ["E1"]
  ∧ contribution "mybucket"
      (distribution "E2" ["otherbucket.s3.amazonaws.com"]) = []
  ∧ outcome (findDistributionsForBucket cdnClient "mybucket" twoPageWorld)
    = Fulfilled ["E1"; "E3"]
  ∧ outcome (findDistributionsForBucket cdnClient "nobucket" twoPageWorld)
    = Fulfilled [].
Proof.
  destruct (discovery_matching_rule "mybucket")
    as (H1 & _ & H3 & H4 & _ & H6 & _).
  destruct (discovery_matching_rule "nobucket")
    as (_ & _ & _ & _ & _ & _ & H7).
  split; [|split; [|split; [|split]]].
  - apply H1. exists ".amazonaws.com". reflexivity.
  - apply (H3 _ [originAt "cdn.example.com"]
             (originAt "mybucket.s3.amazonaws.com")
             [originAt "mybucket.s3.eu-west-1.amazonaws.com"] "E1");
      [reflexivity | | vm_compute; reflexivity | reflexivity].
    repeat constructor.
  - apply H4. repeat constructor.
  - apply (H6 cdnClient [firstPage] lastPage [] twoPageWorld);
      [repeat constructor; discriminate | reflexivity | reflexivity].
  - apply (H7 cdnClient [firstPage] lastPage [] twoPageWorld);
      [repeat constructor; discriminate | reflexivity | reflexivity |].
    repeat constructor.
Defined.

(** C5: over a listing of pages linked by continuation markers, every
    page but the last carrying one, [findDistributionsForBucket] sends
    exactly one request per page (the first without a marker, each later
    one with the marker of the page before), is fulfilled with what the
    pages contribute, and consumes no answer beyond the first page
    without a marker; on a single markerless page without a matching
    distribution it is fulfilled with the empty list after one request. *)
Theorem findDistributionsForBucket_visits_each_page_once
    (client : ClientConfig) (bucketName : string)
    (pages : list ListDistributionsCommandOutput)
    (last : ListDistributionsCommandOutput)
    (rest : list (Settled ListDistributionsCommandOutput)) (w : World) :
  Forall hasMarker pages →
  truthy (nextMarkerOf last) = None →
  listDistributionsResults w = (Fulfilled <$> pages ++ [last]) ++ rest →
  let r := findDistributionsForBucket client bucketName w in
  outcome r = Fulfilled (pagesIds bucketName (pages ++ [last]))
  ∧ trace r
    = ListDistributions client None
      :: ((λ p, ListDistributions client (truthy (nextMarkerOf p)))
          <$> pages)
  ∧ length (trace r) = length (pages ++ [last])
  ∧ listDistributionsResults (world r) = rest
  ∧ (pages = [] →
     flat_map (contribution bucketName) (distributionsOf last) = [] →
     outcome r = Fulfilled [] ∧ trace r = [ListDistributions client None]).
Proof.
  intros Hpages Hlast Hw r.
  destruct (findDistributionsForBucket_chain client bucketName pages last
              rest w Hpages Hlast Hw) as (Ho & Hwd & Ht).
  fold r in Ho, Hwd, Ht.
  split; [exact Ho|]. split; [exact Ht|].
  split; [rewrite Ht; simpl; rewrite length_fmap, length_app; simpl; lia|].
  split; [now rewrite Hwd|].
  intros -> Hnone. rewrite Ho, Ht. unfold pagesIds. simpl.
  now rewrite Hnone.
Qed.

Lemma findDistributionsForBucket_two_pages_witness :
  let r := findDistributionsForBucket cdnClient "mybucket" twoPageWorld in
  outcome r = Fulfilled ["E1"; "E3"]
  ∧ trace r = [ ListDistributions cdnClient None;
                ListDistributions cdnClient (Some "marker-1") ]
  ∧ listDistributionsResults (world r) = [].
Proof.
  destruct (findDistributionsForBucket_visits_each_page_once
              cdnClient "mybucket" [firstPage] lastPage [] twoPageWorld)
    as (Ho & Ht & _ & Hrest & _);
    [repeat constructor; discriminate | reflexivity | reflexivity |].
  cbv zeta. rewrite Ho, Ht, Hrest. repeat split.
Defined.

End DiscoveryFacts.

(** ** Caller references *)

Section CallerReferenceFacts.
Import Js Deploy Observe.





End CallerReferenceFacts.

(** ** Runs of the deploy helper *)

Section RunFacts.
Import Js Region CloudFront Async Deploy Observe Examples.

Lemma contributions_sublist (bucketName : string)
    (distributions : list DistributionSummary) :
  flat_map (contribution bucketName) distributions
  `sublist_of` omap (λ dist, truthy (Id dist)) distributions.
Proof.
  induction distributions as [|dist rest IH]; simpl; [constructor|].
  destruct (scanOrigins_at_most_one bucketName (Id dist) (originsOf dist))
    as [H|(id & Hid & H)]; unfold contribution at 1; rewrite H; simpl.
  - destruct (truthy (Id dist)); [now apply sublist_cons | exact IH].
  - rewrite Hid. now apply sublist_skip.
Qed.

(** Whatever the world answers, the loop only sends listing requests
    through its client, and what it adds to the identifiers is drawn,
    in order, from the identifiers the answers list. *)
Lemma listLoop_any_world (client : ClientConfig) (bucketName : string)
    (fuel : nat) :
  ∀ marker ids w,
    let r := listLoop fuel client bucketName marker ids w in
    Forall (λ ev, isListing ev = true ∧ eventClient ev = Some client)
      (trace r)
    ∧ (∀ out, outcome r = Fulfilled out →
         ∃ found, out = ids ++ found
                  ∧ found `sublist_of` listedIds (listDistributionsResults w)).
Proof.
  induction fuel as [|fuel IH]; intros marker ids w.
  - split; [constructor | discriminate].
  - cbv zeta. rewrite listLoop_round. cbv zeta.
    destruct (listDistributionsResults w) as [|[page|e|] rest];
      try (split; [repeat constructor | discriminate]).
    destruct (truthy (nextMarkerOf page)) as [next|];
      cbn [outcome world trace].
    + destruct (IH (Some next)
                  (scanDistributions bucketName (distributionsOf page) ids)
                  (withListResults w rest)) as [Htr Hout].
      split; [constructor; [now split | exact Htr]|].
      intros out Ho. destruct (Hout out Ho) as (found & -> & Hsub).
      exists (flat_map (contribution bucketName) (distributionsOf page)
              ++ found).
      rewrite scanDistributions_app, <- app_assoc. split; [reflexivity|].
      simpl. apply sublist_app; [apply contributions_sublist | exact Hsub].
    + split; [repeat constructor|].
      intros out [= <-].
      exists (flat_map (contribution bucketName) (distributionsOf page)).
      rewrite scanDistributions_app. split; [reflexivity|].
      simpl. apply sublist_inserts_r, contributions_sublist.
Qed.

Lemma findDistributionsForBucket_first_request (client : ClientConfig)
    (bucketName : string) (w : World) :
  ∃ later, trace (findDistributionsForBucket client bucketName w)
           = ListDistributions client None :: later.
Proof.
  unfold findDistributionsForBucket. rewrite listLoop_round. cbv zeta.
  destruct (listDistributionsResults w) as [|[page|e|] rest];
    try (eexists; reflexivity).
  destruct (truthy (nextMarkerOf page)); eexists; reflexivity.
Qed.

(** One round of the invalidation loop, by cases on the next answer. *)
Lemma invalidateEach_round (client : ClientConfig) (distributionId : string)
    (rest : list string) (w : World) :
  invalidateEach client (distributionId :: rest) w =
    let w1 := world (dateNow w) in
    let ev := CreateInvalidation client distributionId
                (callerReference (clock w (clockReads w)) distributionId)
                1 ["/*"] in
    match createInvalidationResults w with
    | [] => {| outcome := Never; world := w1; trace := [ev] |}
    | Fulfilled _ :: answers =>
        let r := invalidateEach client rest
                   (withInvalidationResults w1 answers) in
        {| outcome := outcome r; world := world r;
           trace := ev :: ConsoleLog ("CloudFront invalidation created for "
                                      +:+ distributionId) :: trace r |}
    | RejectedWith e :: answers =>
        {| outcome := RejectedWith e;
           world := withInvalidationResults w1 answers; trace := [ev] |}
    | Never :: answers =>
        {| outcome := Never;
           world := withInvalidationResults w1 answers; trace := [ev] |}
    end.
Proof.
  cbn [invalidateEach].
  unfold mbind, Task_bind, taskBind, sendCreateInvalidation, dateNow,
    consoleLog.
  cbn [outcome world trace createInvalidationResults].
  destruct (createInvalidationResults w) as [|[[]|e|] answers];
    reflexivity.
Qed.

(** Whatever the world answers, the invalidation loop requests
    invalidations for an initial segment of the identifiers, in order,
    each tagged with the clock reading and its identifier. *)
Lemma invalidateEach_any_world (client : ClientConfig)
    (distributionIds : list string) :
  ∀ w,
    let r := invalidateEach client distributionIds w in
    (invalidations (trace r)).*1 `prefix_of` distributionIds
    ∧ Forall (λ p, ∃ t, p.2 = callerReference t p.1)
        (invalidations (trace r))
    ∧ Forall (λ ev, isSync ev = false
                    ∧ ∀ c, eventClient ev = Some c → c = client) (trace r).
Proof.
  induction distributionIds as [|id rest IH]; intros w.
  - simpl. split; [apply prefix_nil|]. split; constructor.
  - cbv zeta. rewrite invalidateEach_round. cbv zeta.
    assert (∀ c, Some client = Some c → c = client) as Hc by congruence.
    destruct (createInvalidationResults w) as [|[[]|e|] answers];
      cbn [outcome world trace];
      try (simpl; split; [apply prefix_cons, prefix_nil|];
           split; repeat constructor; eauto).
    destruct (IH (withInvalidationResults (world (dateNow w)) answers))
      as (Hp & Href & Hev).
    simpl. split; [now apply prefix_cons|].
    split; [constructor; [eexists; reflexivity | exact Href]|].
    repeat (constructor; [split; [reflexivity | (exact Hc || discriminate)]|]).
    exact Hev.
Qed.

(** The run of a bind, by cases on how its first task ends. *)
Lemma run_bind {A B : Type} (m : Task A) (k : A → Task B) (w : World) :
  (m ≫= k) w =
    match outcome (m w) with
    | Fulfilled a =>
        {| outcome := outcome (k a (world (m w)));
           world := world (k a (world (m w)));
           trace := trace (m w) ++ trace (k a (world (m w))) |}
    | RejectedWith e =>
        {| outcome := RejectedWith e; world := world (m w);
           trace := trace (m w) |}
    | Never => {| outcome := Never; world := world (m w); trace := trace (m w) |}
    end.
Proof. reflexivity. Qed.

Lemma run_log {B : Type} (line : string) (k : unit → Task B) (w : World) :
  (consoleLog line ≫= k) w =
    {| outcome := outcome (k () w); world := world (k () w);
       trace := ConsoleLog line :: trace (k () w) |}.
Proof. reflexivity. Qed.

Lemma getRegionFromProfile_run (profile : string) (w : World) :
  getRegionFromProfile profile w =
    match sharedConfigFiles w with
    | Fulfilled configFiles =>
        {| outcome := Fulfilled (resolveRegion configFiles (processEnv w) profile);
           world := w; trace := [LoadSharedConfigFiles] |}
    | RejectedWith e =>
        {| outcome := RejectedWith e; world := w;
           trace := [LoadSharedConfigFiles] |}
    | Never => {| outcome := Never; world := w;
                  trace := [LoadSharedConfigFiles] |}
    end.
Proof.
unfold getRegionFromProfile. rewrite run_bind.
unfold loadSharedConfigFiles. cbn [outcome world trace].
destruct (sharedConfigFiles w); reflexivity.
Qed.

(** The [try]/[catch] around the sync call, by cases on its answer. *)
Lemma tryCatch_sync (client : ClientConfig) (source target : string)
    (del : bool) (line : string) (wrap : Error → Error) (w : World) :
  tryCatch (sync client source target del;; consoleLog line)
    (λ error, throw (wrap error)) w =
    let ev := Sync client source target del (syncResult w) in
    match syncResult w with
    | Fulfilled _ =>
        {| outcome := Fulfilled (); world := w;
           trace := [ev; ConsoleLog line] |}
    | RejectedWith e =>
        {| outcome := RejectedWith (wrap e); world := w; trace := [ev] |}
    | Never => {| outcome := Never; world := w; trace := [ev] |}
    end.
Proof.
unfold tryCatch. rewrite run_bind. unfold sync, consoleLog, throw.
cbn [outcome world trace].
destruct (syncResult w) as [[]|e|]; reflexivity.
Qed.

(** A run of [deployWebsite], by cases on what the collaborators answer. *)
Lemma deployWebsite_run (options : DeployWebsiteOptions) (w : World) :
  let r := deployWebsite options w in
  match sharedConfigFiles w with
  | Fulfilled configFiles =>
      let cfg := clientFor configFiles (processEnv w) (profile options) in
      match syncResult w with
      | Fulfilled _ =>
          let found :=
            findDistributionsForBucket cfg (bucketName options) w in
          match outcome found with
          | Fulfilled ids =>
              let phase := invalidationPhase cfg ids (world found) in
              outcome r = outcome phase
              ∧ trace r
                = prologue options w configFiles
                  ++ ConsoleLog "S3 sync completed successfully"
                     :: trace found ++ trace phase
          | RejectedWith e =>
              outcome r = RejectedWith e
              ∧ trace r
                = prologue options w configFiles
                  ++ ConsoleLog "S3 sync completed successfully"
                     :: trace found
          | Never =>
              outcome r = Never
              ∧ trace r
                = prologue options w configFiles
                  ++ ConsoleLog "S3 sync completed successfully"
                     :: trace found
          end
      | RejectedWith e =>
          outcome r = RejectedWith (mkError ("S3 sync failed: " +:+ message e))
          ∧ trace r = prologue options w configFiles
      | Never =>
          outcome r = Never ∧ trace r = prologue options w configFiles
      end
  | RejectedWith e =>
      outcome r = RejectedWith e ∧ trace r = [LoadSharedConfigFiles]
  | Never => outcome r = Never ∧ trace r = [LoadSharedConfigFiles]
  end.
Proof.
unfold deployWebsite. rewrite run_bind, getRegionFromProfile_run.
destruct (sharedConfigFiles w) as [configFiles|e|];
  cbn [outcome world trace]; [|split; reflexivity..].
rewrite !run_log. cbn [outcome world trace].
rewrite run_bind, tryCatch_sync.
unfold prologue, clientFor.
destruct (syncResult w) as [[]|e|];
  cbn [outcome world trace region]; [|split; reflexivity..].
rewrite run_bind.
destruct (outcome (findDistributionsForBucket _ _ w)) as [ids|e|];
  cbn [outcome world trace]; split; reflexivity.
Qed.

Lemma invalidationPhase_trace (client : ClientConfig) (ids : list string)
    (w : World) :
  ∃ line,
    trace (invalidationPhase client ids w)
    = ConsoleLog line :: trace (invalidateEach client ids w).
Proof.
  unfold invalidationPhase. destruct ids as [|id rest].
  - eexists. reflexivity.
  - cbn [length Nat.eqb].
    unfold mbind, Task_bind, taskBind, consoleLog.
    cbn [outcome world trace app]. eexists. reflexivity.
Qed.

Lemma invalidations_app (tr1 tr2 : list Event) :
  invalidations (tr1 ++ tr2) = invalidations tr1 ++ invalidations tr2.
Proof. apply omap_app. Qed.

Lemma invalidations_listing (client : ClientConfig) (tr : list Event) :
  Forall (λ ev, isListing ev = true ∧ eventClient ev = Some client) tr →
  invalidations tr = [].
Proof.
  induction 1 as [|ev tr [Hev _] _ IH]; [reflexivity|].
  destruct ev; try discriminate. exact IH.
Qed.


Lemma no_invalidation_in_prologue (options : DeployWebsiteOptions)
    (w : World) (configFiles : SharedConfigFiles) :
  Forall (λ ev, isInvalidation ev = false) (prologue options w configFiles).
Proof. repeat constructor. Qed.

(** An invalidation in a trace that starts with events of other kinds
    comes after all of them. *)
Lemma split_after_quiet_prefix (quiet rest before after : list Event)
    (ev : Event) :
  Forall (λ e, isInvalidation e = false) quiet →
  isInvalidation ev = true →
  quiet ++ rest = before ++ ev :: after →
  ∃ mid, before = quiet ++ mid.
Proof.
  intros Hquiet Hev. revert before.
  induction Hquiet as [|e quiet He _ IH]; intros before Heq.
  - now exists before.
  - destruct before as [|b before]; simpl in Heq.
    + injection Heq as -> _. congruence.
    + injection Heq as -> Heq. destruct (IH _ Heq) as [mid ->].
      now exists mid.
Qed.

Lemma quiet_trace_has_no_invalidation (tr before after : list Event)
    (ev : Event) :
  Forall (λ e, isInvalidation e = false) tr →
  tr = before ++ ev :: after → isInvalidation ev = true → False.
Proof.
  intros H -> Hev. apply Forall_app in H as [_ H].
  apply Forall_cons in H as [H _]. congruence.
Qed.

(** C6: in every run of [deployWebsite], an invalidation request is
    preceded in the trace by the sync call and that call was fulfilled;
    and when the sync call is not fulfilled the trace holds no
    invalidation request at all. *)
Theorem no_invalidation_before_sync_success
    (options : DeployWebsiteOptions) (w : World) :
  let r := deployWebsite options w in
  (∀ before ev after,
     trace r = before ++ ev :: after →
     isInvalidation ev = true →
     ∃ client source target del,
       Sync client source target del (Fulfilled ()) ∈ before)
  ∧ (syncResult w ≠ Fulfilled () →
     Forall (λ ev, isInvalidation ev = false) (trace r)).
Proof.
  intros r. pose proof (deployWebsite_run options w) as Hrun.
  cbv zeta in Hrun. fold r in Hrun.
  destruct (sharedConfigFiles w) as [configFiles|e|].
  2,3: destruct Hrun as [_ Ht]; rewrite Ht; split;
    [intros before ev after Heq Hev; exfalso;
     eapply quiet_trace_has_no_invalidation; [|exact Heq|exact Hev];
     repeat constructor
    |intros _; repeat constructor].
  destruct (syncResult w) as [[]|e|] eqn:Hsync.
  2,3: destruct Hrun as [_ Ht]; rewrite Ht; split;
    [intros before ev after Heq Hev; exfalso;
     eapply quiet_trace_has_no_invalidation; [|exact Heq|exact Hev];
     apply no_invalidation_in_prologue
    |intros _; apply no_invalidation_in_prologue].
  split; [|congruence].
  intros before ev after Heq Hev.
  assert (∃ rest, trace r = prologue options w configFiles ++ rest)
    as [rest Hrest].
  { destruct (outcome (findDistributionsForBucket _ _ w));
      destruct Hrun as [_ Ht]; rewrite Ht; eexists; reflexivity. }
  rewrite Hrest in Heq.
  destruct (split_after_quiet_prefix _ _ _ _ _
              (no_invalidation_in_prologue options w configFiles) Hev Heq)
    as [mid ->].
  eexists _, _, _, _. unfold prologue. rewrite Hsync.
  apply elem_of_app. left. do 3 apply list_elem_of_further.
  apply list_elem_of_here.
Qed.

(** C8: when the shared configuration loads and the sync call is
    rejected with an error, [deployWebsite] is rejected with one error
    whose message is ["S3 sync failed: "] followed by the message of that
    error; the rejected sync call is the only sync call of the run and
    its last event. *)
Theorem sync_failure_is_wrapped_and_rethrown
    (options : DeployWebsiteOptions) (w : World)
    (configFiles : SharedConfigFiles) (e : Error) :
  sharedConfigFiles w = Fulfilled configFiles →
  syncResult w = RejectedWith e →
  let r := deployWebsite options w in
  outcome r = RejectedWith (mkError ("S3 sync failed: " +:+ message e))
  ∧ ∃ before client source target del,
      trace r = before ++ [Sync client source target del (RejectedWith e)]
      ∧ Forall (λ ev, isSync ev = false ∧ isInvalidation ev = false
                      ∧ isListing ev = false) before.
Proof.
  intros Hfiles Hsync r. pose proof (deployWebsite_run options w) as Hrun.
  cbv zeta in Hrun. fold r in Hrun. rewrite Hfiles, Hsync in Hrun.
  destruct Hrun as [Ho Ht]. split; [exact Ho|].
  rewrite Ht. unfold prologue. rewrite Hsync.
  eexists [_; _; _], _, _, _, _. split; [reflexivity|].
  repeat constructor.
Qed.

Lemma sync_failure_witness :
  outcome (deployWebsite mybucketOptions failedSyncWorld)
  = RejectedWith (mkError "S3 sync failed: AccessDenied").
Proof.
  exact (proj1 (sync_failure_is_wrapped_and_rethrown mybucketOptions
                  failedSyncWorld defaultProfileFiles
                  (mkError "AccessDenied") eq_refl eq_refl)).
Defined.

Lemma no_invalidation_after_failed_sync_witness :
  Forall (λ ev, isInvalidation ev = false)
    (trace (deployWebsite mybucketOptions failedSyncWorld)).
Proof.
  apply (proj2 (no_invalidation_before_sync_success mybucketOptions
                  failedSyncWorld)).
  vm_compute. discriminate.
Defined.





(** When the listing reports one distribution twice and the clock does
    not advance, the two requests share their reference: the code does
    not deduplicate. *)
Remark repeated_listing_shares_reference :
  callerReferences (trace (deployWebsite mybucketOptions repeatedListingWorld))
  = ["1700000000000-E1"; "1700000000000-E1"].
Proof. vm_compute. reflexivity. Qed.


Lemma clientFor_no_profile (configFiles : SharedConfigFiles)
    (env : gmap string string) :
  clientFor configFiles env None
  = {| region := resolveRegion configFiles env "default";
       credentials := None |}.
Proof. reflexivity. Qed.

(** What holds of a run without a profile when the shared configuration
    loads: the region is the one the code resolves for the profile
    [default], a non-empty region of the section the code selects taking
    precedence over the environment, and every call of the run through
    the S3 or the CloudFront client goes through a client built with that
    region and without a credential provider. *)
Theorem no_profile_uses_default_entry_and_default_chain
    (options : DeployWebsiteOptions) (w : World)
    (configFiles : SharedConfigFiles) :
  profile options = None →
  sharedConfigFiles w = Fulfilled configFiles →
  let r := deployWebsite options w in
  let cfg := {| region := resolveRegion configFiles (processEnv w) "default";
                credentials := None |} in
  Sync cfg (default "website" (websitePath options))
    ("s3://" +:+ bucketName options) true (syncResult w) ∈ trace r
  ∧ (syncResult w = Fulfilled () → ListDistributions cfg None ∈ trace r)
  ∧ Forall (λ ev, ∀ c, eventClient ev = Some c → c = cfg) (trace r)
  ∧ (∀ sec r0,
       selectedSection configFiles "default" = Some sec →
       truthy (sec !! "region") = Some r0 →
       region cfg = r0).
Proof.
  intros Hprofile Hfiles r cfg.
  pose proof (deployWebsite_run options w) as Hrun.
  cbv zeta in Hrun. fold r in Hrun. rewrite Hfiles, Hprofile in Hrun.
  rewrite clientFor_no_profile in Hrun. fold cfg in Hrun.
  assert (prologue options w configFiles
          = [ LoadSharedConfigFiles;
              ConsoleLog ("Using region: " +:+ region cfg);
              ConsoleLog ("Syncing " +:+ dquote
                          +:+ default "website" (websitePath options)
                          +:+ dquote +:+ " to s3://" +:+ bucketName options
                          +:+ "...");
              Sync cfg (default "website" (websitePath options))
                ("s3://" +:+ bucketName options) true (syncResult w) ])
    as Hprologue.
  { unfold prologue. rewrite Hprofile, clientFor_no_profile. reflexivity. }
  assert (Forall (λ ev, ∀ c, eventClient ev = Some c → c = cfg)
            (prologue options w configFiles)) as Hquiet.
  { rewrite Hprologue. repeat constructor; simpl; congruence. }
  assert (∃ rest, trace r = prologue options w configFiles ++ rest
                  ∧ Forall (λ ev, ∀ c, eventClient ev = Some c → c = cfg) rest
                  ∧ (syncResult w = Fulfilled () →
                     ListDistributions cfg None ∈ rest))
    as (rest & Ht & Hrest & Hlist).
  { destruct (syncResult w) as [[]|e|].
    2,3: exists []; destruct Hrun as [_ ->]; rewrite app_nil_r;
      split; [reflexivity | split; [constructor | discriminate]].
    pose proof (listLoop_any_world cfg (bucketName options)
                  (S (length (listDistributionsResults w))) None [] w)
      as [Hlisting _].
    change (listLoop _ cfg (bucketName options) None [] w)
      with (findDistributionsForBucket cfg (bucketName options) w)
      in Hlisting.
    assert (Forall (λ ev, ∀ c, eventClient ev = Some c → c = cfg)
              (trace (findDistributionsForBucket cfg (bucketName options) w)))
      as Hfound.
    { eapply Forall_impl; [exact Hlisting|].
      intros ev [_ Hev] c Hc. congruence. }
    destruct (findDistributionsForBucket_first_request cfg
                (bucketName options) w) as [later Hfirst].
    destruct (outcome (findDistributionsForBucket cfg (bucketName options) w))
      as [ids|e|]; destruct Hrun as [_ ->]; eexists;
      (split; [reflexivity|]).
    - split.
      + constructor; [discriminate|]. apply Forall_app. split; [exact Hfound|].
        destruct (invalidationPhase_trace cfg ids
          (world (findDistributionsForBucket cfg (bucketName options) w)))
          as [line ->].
        constructor; [discriminate|].
        destruct (invalidateEach_any_world cfg ids
          (world (findDistributionsForBucket cfg (bucketName options) w)))
          as (_ & _ & Hev).
        eapply Forall_impl; [exact Hev|]. intros ev [_ H]. exact H.
      + intros _. rewrite Hfirst. apply list_elem_of_further.
        apply elem_of_app. left. apply list_elem_of_here.
    - split; [constructor; [discriminate | exact Hfound]|].
      intros _. rewrite Hfirst. apply list_elem_of_further, list_elem_of_here.
    - split; [constructor; [discriminate | exact Hfound]|].
      intros _. rewrite Hfirst. apply list_elem_of_further, list_elem_of_here.
  }
  split.
  { rewrite Ht, Hprologue. apply elem_of_app. left.
    do 3 apply list_elem_of_further. apply list_elem_of_here. }
  split.
  { intros Hsync. rewrite Ht. apply elem_of_app. right. now apply Hlist. }
  split.
  { rewrite Ht. apply Forall_app. now split. }
  intros sec r0 Hsec Hr0. simpl.
  now apply (resolveRegion_profile_first configFiles (processEnv w)
               "default" sec r0).
Qed.

Lemma no_profile_witness :
  Sync {| region := "eu-central-1"; credentials := None |}
    "website" "s3://mybucket" true (Fulfilled ())
  ∈ trace (deployWebsite mybucketOptions twoPageWorld).
Proof.
  exact (proj1 (no_profile_uses_default_entry_and_default_chain
                  mybucketOptions twoPageWorld defaultProfileFiles
                  eq_refl eq_refl)).
Defined.

(** C10 at a [default] profile that has a section without a region in
    the config file and a region in the credentials file: a run without
    a profile builds its clients without a credential provider, as the
    claim says, but with the region of [AWS_REGION], although the entry
    named [default] of the credentials file holds a region, which the
    stated order of resolution yields. *)
Theorem no_profile_skips_default_region_of_credentials_file :
  section (credentialsFile Expect.splitDefaultFiles) "default" ≫= (.!! "region")
  = Some "eu-west-1"
  ∧ regionByStatedOrder Expect.splitDefaultFiles westEnv None = "eu-west-1"
  ∧ Sync {| region := "us-west-2"; credentials := None |}
      "website" "s3://mybucket" true (Fulfilled ())
    ∈ trace (deployWebsite mybucketOptions Expect.splitDefaultWorld)
  ∧ ListDistributions {| region := "us-west-2"; credentials := None |} None
    ∈ trace (deployWebsite mybucketOptions Expect.splitDefaultWorld)
  ∧ Forall (λ ev, ∀ c, eventClient ev = Some c →
                  c = {| region := "us-west-2"; credentials := None |})
      (trace (deployWebsite mybucketOptions Expect.splitDefaultWorld)).
Proof.
  split; [vm_compute; reflexivity|].
  split; [vm_compute; reflexivity|].
  assert (trace (deployWebsite mybucketOptions Expect.splitDefaultWorld)
          = [ LoadSharedConfigFiles;
              ConsoleLog "Using region: us-west-2";
              ConsoleLog ("Syncing " +:+ dquote +:+ "website" +:+ dquote
                          +:+ " to s3://mybucket...");
              Sync {| region := "us-west-2"; credentials := None |}
                "website" "s3://mybucket" true (Fulfilled ());
              ConsoleLog "S3 sync completed successfully";
              ListDistributions
                {| region := "us-west-2"; credentials := None |} None;
              ConsoleLog "Found 1 CloudFront distribution(s) linked to bucket";
              CreateInvalidation
                {| region := "us-west-2"; credentials := None |}
                "E3" "1700000000000-E3" 1 ["/*"];
              ConsoleLog "CloudFront invalidation created for E3" ]) as ->
    by (vm_compute; reflexivity).
  split; [do 3 apply list_elem_of_further; apply list_elem_of_here|].
  split; [do 5 apply list_elem_of_further; apply list_elem_of_here|].
  repeat constructor; simpl; congruence.
Qed.

End RunFacts.

(** ** Further properties of the bucket-name derivation *)

Section SanitizeFacts.
Import Js BucketName.

Local Ltac each_char c :=
  destruct c as [[] [] [] [] [] [] [] []]; vm_compute;
  try reflexivity; try discriminate; auto.

Lemma nameChar_not_upper (c : ascii) :
  isNameChar c = true → isUpper c = false.
Proof. each_char c. Qed.

Lemma nameChar_not_dot (c : ascii) : isNameChar c = true → isDot c = false.
Proof. each_char c. Qed.

Lemma isHyphen_eq (c : ascii) : isHyphen c = true → c = "-"%char.
Proof. each_char c. Qed.

Lemma toLowerCaseChar_idempotent (c : ascii) :
  toLowerCaseChar (toLowerCaseChar c) = toLowerCaseChar c.
Proof. each_char c. Qed.

Lemma dot_survives_lowering (c : ascii) :
  isDot (toLowerCaseChar c) = isDot c.
Proof. each_char c. Qed.

Lemma hyphen_is_lowercase : toLowerCaseChar "-" = "-"%char.
Proof. reflexivity. Qed.

Lemma toLowerCase_nameChars (s : string) :
  allNameChars s = true → toLowerCase s = s.
Proof.
  induction s as [|c s IH]; [reflexivity|].
  simpl. intros [Hc Hs]%andb_true_iff.
  unfold toLowerCaseChar. now rewrite (nameChar_not_upper c Hc), IH.
Qed.

Lemma replaceDots_nameChars (s : string) :
  allNameChars s = true → replaceDots s = s.
Proof.
  induction s as [|c s IH]; [reflexivity|].
  simpl. intros [Hc Hs]%andb_true_iff.
  now rewrite (nameChar_not_dot c Hc), IH.
Qed.

Lemma removeInvalid_nameChars (s : string) :
  allNameChars s = true → removeInvalid s = s.
Proof.
  induction s as [|c s IH]; [reflexivity|].
  simpl. intros [Hc Hs]%andb_true_iff. now rewrite Hc, IH.
Qed.

Lemma collapseFrom_fixed (b : bool) (s : string) :
  hasDoubleHyphen s = false →
  (b = true → startsWithHyphen s = false) →
  collapseFrom b s = s.
Proof.
  revert b. induction s as [|c s IH]; intros b Hd Hb; [reflexivity|].
  simpl in Hd. apply orb_false_iff in Hd as [H1 H2]. simpl.
  destruct (isHyphen c) eqn:Hc.
  - destruct b; [specialize (Hb eq_refl); simpl in Hb; congruence|].
    rewrite (isHyphen_eq c Hc). rewrite IH; [reflexivity | exact H2 |].
    intros _. now rewrite andb_true_l in H1.
  - rewrite IH; [reflexivity | exact H2 | discriminate].
Qed.

Lemma dropLeadingHyphen_fixed (s : string) :
  startsWithHyphen s = false → dropLeadingHyphen s = s.
Proof. destruct s as [|c s]; simpl; [reflexivity|]. now intros ->. Qed.

Lemma dropTrailingHyphen_fixed (s : string) :
  endsWithHyphen s = false → dropTrailingHyphen s = s.
Proof.
  induction s as [|c s IH]; [reflexivity|].
  destruct s as [|c' s]; simpl; [now intros ->|].
  intros H. simpl in IH. now rewrite IH.
Qed.

(** X1: sanitizing is idempotent: the sanitized form of a domain is its
    own sanitized form, so the stem of a derived bucket name derives the
    same name again. *)
Theorem sanitize_idempotent (domain : string) :
  sanitize (sanitize domain) = sanitize domain.
Proof.
  destruct (sanitize_shape domain) as (Hd & Hs & He).
  pose proof (allNameChars_sanitize domain) as Hn.
  set (s := sanitize domain) in *. unfold sanitize at 1.
  rewrite toLowerCase_nameChars, replaceDots_nameChars,
    removeInvalid_nameChars by assumption.
  unfold trimEdgeHyphens, collapseHyphens.
  rewrite collapseFrom_fixed by (assumption || discriminate).
  rewrite dropLeadingHyphen_fixed by assumption.
  now apply dropTrailingHyphen_fixed.
Qed.

Lemma toLowerCase_idempotent (s : string) :
  toLowerCase (toLowerCase s) = toLowerCase s.
Proof.
  induction s as [|c s IH]; [reflexivity|].
  simpl. now rewrite toLowerCaseChar_idempotent, IH.
Qed.

(** X3: the derivation does not depend on letter case: a domain and its
    lowercase form derive the same bucket name or fail alike. *)
Theorem getWebsiteBucketName_ignores_case (domain : string) :
  getWebsiteBucketName (toLowerCase domain) = getWebsiteBucketName domain.
Proof.
  unfold getWebsiteBucketName, sanitize.
  now rewrite toLowerCase_idempotent.
Qed.

Lemma replaceDots_lower_replaceDots (s : string) :
  replaceDots (toLowerCase (replaceDots s)) = replaceDots (toLowerCase s).
Proof.
  induction s as [|c s IH]; [reflexivity|].
  simpl. rewrite IH. f_equal.
  destruct (isDot c) eqn:Hc.
  - rewrite hyphen_is_lowercase, dot_survives_lowering, Hc. reflexivity.
  - reflexivity.
Qed.

(** X5: dots and hyphens of a domain are not told apart: writing a hyphen
    for every dot of a domain leaves the derived bucket name unchanged, so
    domains that differ only in this way share one bucket name. *)
Theorem getWebsiteBucketName_confuses_dots_and_hyphens (domain : string) :
  getWebsiteBucketName (replaceDots domain) = getWebsiteBucketName domain.
Proof.
  unfold getWebsiteBucketName, sanitize.
  now rewrite replaceDots_lower_replaceDots.
Qed.

Lemma length_toLowerCase (s : string) :
  String.length (toLowerCase s) = String.length s.
Proof. induction s as [|c s IH]; simpl; [reflexivity | now rewrite IH]. Qed.

Lemma length_replaceDots (s : string) :
  String.length (replaceDots s) = String.length s.
Proof. induction s as [|c s IH]; simpl; [reflexivity | now rewrite IH]. Qed.

Lemma length_removeInvalid (s : string) :
  String.length (removeInvalid s) ≤ String.length s.
Proof.
  induction s as [|c s IH]; simpl; [lia|].
  destruct (isNameChar c); simpl; lia.
Qed.

Lemma length_collapseFrom (b : bool) (s : string) :
  String.length (collapseFrom b s) ≤ String.length s.
Proof.
  revert b. induction s as [|c s IH]; intros b; simpl; [lia|].
  destruct (isHyphen c); [destruct b|]; simpl;
    [specialize (IH true) | specialize (IH true) | specialize (IH false)]; lia.
Qed.

Lemma length_dropLeadingHyphen (s : string) :
  String.length (dropLeadingHyphen s) ≤ String.length s.
Proof. destruct s as [|c s]; simpl; [lia|]. destruct (isHyphen c); simpl; lia. Qed.

Lemma length_dropTrailingHyphen (s : string) :
  String.length (dropTrailingHyphen s) ≤ String.length s.
Proof.
  induction s as [|c s IH]; [simpl; lia|].
  destruct s as [|c' s].
  - simpl. destruct (isHyphen c); simpl; lia.
  - change (dropTrailingHyphen (String c (String c' s)))
      with (String c (dropTrailingHyphen (String c' s))).
    simpl String.length in *. lia.
Qed.

Lemma length_sanitize (domain : string) :
  String.length (sanitize domain) ≤ String.length domain.
Proof.
  unfold sanitize, trimEdgeHyphens, collapseHyphens.
  etrans; [apply length_dropTrailingHyphen|].
  etrans; [apply length_dropLeadingHyphen|].
  etrans; [apply length_collapseFrom|].
  etrans; [apply length_removeInvalid|].
  now rewrite length_replaceDots, length_toLowerCase.
Qed.

(** X4: every domain of at most 55 characters is accepted: sanitizing
    never lengthens a domain, and 55 characters leave room for the
    8-character suffix within the bound of 63. *)
Theorem short_domains_are_accepted (domain : string) :
  String.length domain ≤ 55 →
  getWebsiteBucketName domain = Return (sanitize domain +:+ "-website").
Proof.
  intros H. rewrite getWebsiteBucketName_cases. cbv zeta.
  pose proof (length_sanitize domain) as Hs.
  destruct (63 <? _) eqn:E; [|reflexivity].
  apply Nat.ltb_lt in E. rewrite length_append in E. simpl in E. lia.
Qed.

Lemma short_domains_witness :
  getWebsiteBucketName "shop.example.co.uk"
  = Return (sanitize "shop.example.co.uk" +:+ "-website").
Proof. apply short_domains_are_accepted. vm_compute. lia. Defined.

(** X2: a name returned by [getWebsiteBucketName] meets the naming
    constraints (only lowercase letters, digits and hyphens, 3 to 63
    characters, no hyphen at either end, no two hyphens in a row) exactly
    when the sanitized form of the domain is not empty. *)
Theorem returned_name_is_valid_iff (domain name : string) :
  getWebsiteBucketName domain = Return name →
  (validBucketName name = true ↔ sanitize domain ≠ EmptyString).
Proof.
  rewrite getWebsiteBucketName_cases. cbv zeta.
  destruct (63 <? _) eqn:E; [discriminate|]. intros [= <-].
  apply Nat.ltb_ge in E. split.
  - intros Hv Hempty. rewrite Hempty in Hv. vm_compute in Hv. discriminate.
  - intros Hne.
    destruct (sanitize_shape domain) as (Hd & Hs & He).
    unfold validBucketName.
    rewrite allNameChars_append, allNameChars_sanitize.
    rewrite startsWithHyphen_append, Hs by exact Hne.
    rewrite endsWithHyphen_append by discriminate.
    rewrite hasDoubleHyphen_append by (assumption || reflexivity).
    apply Nat.leb_le in E. rewrite E.
    replace (3 <=? String.length (sanitize domain +:+ "-website")) with true;
      [reflexivity|].
    symmetry. apply Nat.leb_le. rewrite length_append. simpl. lia.
Qed.

Lemma returned_name_witness :
  validBucketName "www-my-site-org-website" = true
  ↔ sanitize "www.My-Site.org" ≠ EmptyString.
Proof.
  apply (returned_name_is_valid_iff "www.My-Site.org").
  vm_compute. reflexivity.
Defined.

End SanitizeFacts.

(** ** Further properties of region resolution *)

Section MoreRegionFacts.
Import Js Region Examples.

Lemma truthy_nonempty (v : option string) (s : string) :
  truthy v = Some s → s ≠ EmptyString.
Proof. destruct v as [[|c t]|]; simpl; intros [= <-] || discriminate. discriminate. Qed.

(** X6: the resolved region is never the empty string, whatever the
    files, the environment and the profile hold: empty settings count as
    absent and the last candidate is ["us-east-1"]. *)
Theorem resolveRegion_nonempty (configFiles : SharedConfigFiles)
    (env : gmap string string) (profile : string) :
  resolveRegion configFiles env profile ≠ EmptyString.
Proof.
  unfold resolveRegion.
  destruct (truthy (_ ≫= (.!! "region"))) as [r|] eqn:Hr;
    [now apply truthy_nonempty in Hr|].
  destruct (truthy (or_else _ _)) as [r|] eqn:He;
    [now apply truthy_nonempty in He | discriminate].
Qed.

(** X7: for an optional profile, an absent or empty one standing for
    [default], the code resolves the region in the stated order (config
    file, credentials file, [AWS_REGION], [AWS_DEFAULT_REGION],
    ["us-east-1"]) whenever the config file has no section for the profile
    or has a section with a non-empty region. *)
Theorem region_follows_stated_order_when_config_decides
    (configFiles : SharedConfigFiles) (env : gmap string string)
    (profile : option string) :
  let profileName := default "default" (truthy profile) in
  section (configFile configFiles) profileName = None
  ∨ truthy (section (configFile configFiles) profileName ≫= (.!! "region"))
    ≠ None →
  resolveRegion configFiles env (default "" profile)
  = regionByStatedOrder configFiles env profile.
Proof.
  destruct profile as [p|]; cbv zeta; intros H.
  - now apply resolveRegion_follows_stated_order.
  - change (regionByStatedOrder configFiles env None)
      with (regionByStatedOrder configFiles env (Some "")).
    now apply resolveRegion_follows_stated_order.
Qed.

Lemma region_follows_stated_order_witness :
  resolveRegion defaultProfileFiles westEnv ""
  = regionByStatedOrder defaultProfileFiles westEnv None.
Proof.
  apply (region_follows_stated_order_when_config_decides
           defaultProfileFiles westEnv None).
  right. vm_compute. discriminate.
Defined.

End MoreRegionFacts.

(** ** Further properties of distribution discovery *)

Section MoreDiscoveryFacts.
Import Js Region CloudFront Async Deploy Observe Examples Expect.

(** A fulfilled loop has walked a chain of pages. *)
Lemma listLoop_fulfilled_inv (client : ClientConfig) (bucketName : string)
    (fuel : nat) :
  ∀ marker ids w out,
    outcome (listLoop fuel client bucketName marker ids w) = Fulfilled out →
    ∃ pages last rest,
      listDistributionsResults w = (Fulfilled <$> pages ++ [last]) ++ rest
      ∧ Forall hasMarker pages
      ∧ truthy (nextMarkerOf last) = None
      ∧ out = ids ++ pagesIds bucketName (pages ++ [last])
      ∧ world (listLoop fuel client bucketName marker ids w)
        = withListResults w rest.
Proof.
  induction fuel as [|fuel IH]; intros marker ids w out; [discriminate|].
  rewrite listLoop_round. cbv zeta.
  destruct (listDistributionsResults w) as [|[page|e|] rest] eqn:Hw;
    try discriminate.
  destruct (truthy (nextMarkerOf page)) as [next|] eqn:Hnext;
    cbn [outcome world trace].
  - intros Ho. destruct (IH _ _ _ _ Ho)
      as (pages & last & rest' & Hrest & Hpages & Hlast & -> & Hworld).
    exists (page :: pages), last, rest'. cbn in Hrest.
    split; [rewrite Hrest; reflexivity|].
    split; [constructor; [unfold hasMarker; congruence | exact Hpages]|].
    split; [exact Hlast|].
    split; [|exact Hworld].
    rewrite scanDistributions_app, <- app_assoc. reflexivity.
  - intros [= <-]. exists [], page, rest.
    split; [reflexivity|]. split; [constructor|]. split; [exact Hnext|].
    split; [|reflexivity].
    rewrite scanDistributions_app. cbn [pagesIds flat_map app].
    now rewrite app_nil_r.
Qed.

(** X8: discovery is fulfilled only after it has met a page without a
    continuation marker: the answers it consumed are then a chain of pages
    with markers ended by that page, the result is what these pages
    contribute in order, and the later answers are left unread. *)
Theorem discovery_fulfilled_only_at_markerless_page
    (client : ClientConfig) (bucketName : string) (w : World)
    (out : list string) :
  outcome (findDistributionsForBucket client bucketName w) = Fulfilled out →
  ∃ pages last rest,
    listDistributionsResults w = (Fulfilled <$> pages ++ [last]) ++ rest
    ∧ Forall hasMarker pages
    ∧ truthy (nextMarkerOf last) = None
    ∧ out = pagesIds bucketName (pages ++ [last])
    ∧ listDistributionsResults
        (world (findDistributionsForBucket client bucketName w)) = rest.
Proof.
  unfold findDistributionsForBucket. intros Ho.
  destruct (listLoop_fulfilled_inv _ _ _ _ _ _ _ Ho)
    as (pages & last & rest & Hw & Hpages & Hlast & Hout & Hworld).
  exists pages, last, rest. rewrite Hworld. auto.
Qed.

Lemma discovery_fulfilled_witness :
  ∃ pages last rest,
    listDistributionsResults twoPageWorld
    = (Fulfilled <$> pages ++ [last]) ++ rest
    ∧ Forall hasMarker pages
    ∧ truthy (nextMarkerOf last) = None
    ∧ ["E1"; "E3"] = pagesIds "mybucket" (pages ++ [last])
    ∧ listDistributionsResults
        (world (findDistributionsForBucket cdnClient "mybucket" twoPageWorld))
      = rest.
Proof.
  apply (discovery_fulfilled_only_at_markerless_page cdnClient "mybucket"
           twoPageWorld ["E1"; "E3"]).
  vm_compute. reflexivity.
Defined.

Lemma elem_of_scanOrigins (bucketName : string) (distId : option string)
    (origins : list Origin) (id : string) :
  id ∈ scanOrigins bucketName distId origins []
  ↔ truthy distId = Some id
    ∧ Exists (λ o, originMatches bucketName o = true) origins.
Proof.
  induction origins as [|o origins IH]; simpl.
  - rewrite elem_of_nil, Exists_nil. tauto.
  - rewrite Exists_cons. destruct (originMatches bucketName o) eqn:Hm.
    + destruct (truthy distId) as [id'|] eqn:Hid.
      * rewrite list_elem_of_singleton. split.
        -- intros ->. auto.
        -- intros [[= ->] _]. reflexivity.
      * rewrite IH. split; intros [H _]; discriminate.
    + rewrite IH. split; intros [H1 H2]; (split; [exact H1|]); [now right|].
      destruct H2 as [H2|H2]; [discriminate | exact H2].
Qed.

Lemma elem_of_pagesIds (bucketName : string)
    (pages : list ListDistributionsCommandOutput) (id : string) :
  id ∈ pagesIds bucketName pages
  ↔ ∃ page dist,
      page ∈ pages ∧ dist ∈ distributionsOf page
      ∧ recordedAs bucketName id dist.
Proof.
  unfold pagesIds, recordedAs. rewrite list_elem_of_In, in_flat_map. split.
  - intros (page & Hpage & Hin). apply in_flat_map in Hin as (dist & Hd & Hin).
    exists page, dist. rewrite !list_elem_of_In.
    split; [exact Hpage|]. split; [exact Hd|].
    apply elem_of_scanOrigins. now apply list_elem_of_In.
  - intros (page & dist & Hpage & Hd & Hrec).
    exists page. rewrite <- list_elem_of_In. split; [exact Hpage|].
    apply in_flat_map. exists dist. rewrite <- !list_elem_of_In.
    split; [exact Hd|]. now apply elem_of_scanOrigins.
Qed.

(** X9: over a chain of pages ended by a markerless page, discovery
    returns exactly the identifiers of the listed distributions that have
    a non-empty [Id] and at least one origin matching the bucket: none is
    missed and none is made up. *)
Theorem discovery_is_sound_and_complete
    (client : ClientConfig) (bucketName : string)
    (pages : list ListDistributionsCommandOutput)
    (last : ListDistributionsCommandOutput)
    (rest : list (Settled ListDistributionsCommandOutput)) (w : World) :
  Forall hasMarker pages →
  truthy (nextMarkerOf last) = None →
  listDistributionsResults w = (Fulfilled <$> pages ++ [last]) ++ rest →
  ∃ out,
    outcome (findDistributionsForBucket client bucketName w) = Fulfilled out
    ∧ ∀ id,
        id ∈ out
        ↔ ∃ page dist,
            page ∈ pages ++ [last] ∧ dist ∈ distributionsOf page
            ∧ recordedAs bucketName id dist.
Proof.
  intros Hpages Hlast Hw.
  destruct (findDistributionsForBucket_chain client bucketName pages last
              rest w Hpages Hlast Hw) as (Ho & _ & _).
  eexists. split; [exact Ho|]. intros id. apply elem_of_pagesIds.
Qed.

Lemma discovery_sound_witness :
  ∃ out,
    outcome (findDistributionsForBucket cdnClient "mybucket" twoPageWorld)
    = Fulfilled out
    ∧ ∀ id,
        id ∈ out
        ↔ ∃ page dist,
            page ∈ [firstPage] ++ [lastPage] ∧ dist ∈ distributionsOf page
            ∧ recordedAs "mybucket" id dist.
Proof.
  apply (discovery_is_sound_and_complete cdnClient "mybucket" [firstPage]
           lastPage [] twoPageWorld);
    [repeat constructor; discriminate | reflexivity | reflexivity].
Defined.

(** The loop along pages that all carry a marker, up to the answer that
    follows them. *)
Lemma listLoop_stopped (client : ClientConfig) (bucketName : string)
    (pages : list ListDistributionsCommandOutput)
    (tail : list (Settled ListDistributionsCommandOutput)) :
  Forall hasMarker pages →
  match tail with Fulfilled _ :: _ => False | _ => True end →
  ∀ fuel marker ids w,
    length pages < fuel →
    listDistributionsResults w = (Fulfilled <$> pages) ++ tail →
    let r := listLoop fuel client bucketName marker ids w in
    outcome r = match tail with
                | RejectedWith e :: _ => RejectedWith e
                | _ => Never
                end
    ∧ listDistributionsResults (world r) = List.tl tail
    ∧ trace r
      = ListDistributions client marker
        :: ((λ p, ListDistributions client (truthy (nextMarkerOf p)))
            <$> pages).
Proof.
  intros Hpages Htail.
  induction Hpages as [|p pages Hp _ IH]; intros fuel marker ids w Hfuel Hw;
    (destruct fuel as [|fuel]; [simpl in Hfuel; lia|]);
    cbv zeta; rewrite listLoop_round, Hw; cbn [fmap list_fmap app]; cbv zeta.
  - destruct tail as [|[page|e|] tail]; [|contradiction|..];
      cbn [outcome world trace]; rewrite ?Hw; auto.
  - unfold hasMarker in Hp.
    destruct (truthy (nextMarkerOf p)) as [next|] eqn:Hnext; [|contradiction].
    cbn [outcome world trace].
    destruct (IH fuel (Some next)
                (scanDistributions bucketName (distributionsOf p) ids)
                (withListResults w ((Fulfilled <$> pages) ++ tail)))
      as (Ho & Hwd & Ht); [simpl in Hfuel; lia | reflexivity |].
    cbv zeta in Ho, Hwd, Ht. rewrite Ho, Hwd, Ht. auto.
Qed.

(** X10: a rejected page request ends discovery with that very error,
    unwrapped: after the pages with markers that came before, no further
    request is sent and what those pages contributed is dropped. *)
Theorem discovery_rejected_page_propagates
    (client : ClientConfig) (bucketName : string)
    (pages : list ListDistributionsCommandOutput) (e : Error)
    (rest : list (Settled ListDistributionsCommandOutput)) (w : World) :
  Forall hasMarker pages →
  listDistributionsResults w = (Fulfilled <$> pages) ++ RejectedWith e :: rest →
  let r := findDistributionsForBucket client bucketName w in
  outcome r = RejectedWith e
  ∧ length (trace r) = S (length pages)
  ∧ listDistributionsResults (world r) = rest.
Proof.
  intros Hpages Hw. unfold findDistributionsForBucket.
  destruct (listLoop_stopped client bucketName pages (RejectedWith e :: rest)
              Hpages I (S (length (listDistributionsResults w))) None [] w)
    as (Ho & Hwd & Ht); [|exact Hw|].
  { rewrite Hw, length_app, length_fmap. lia. }
  cbv zeta in *. rewrite Ho, Hwd, Ht. simpl. now rewrite length_fmap.
Qed.

Lemma discovery_rejected_witness :
  outcome (findDistributionsForBucket cdnClient "mybucket" rejectedListingWorld)
  = RejectedWith (mkError "Throttling").
Proof.
  exact (proj1 (discovery_rejected_page_propagates cdnClient "mybucket"
                  [firstPage] (mkError "Throttling") [] rejectedListingWorld
                  ltac:(repeat constructor; discriminate) eq_refl)).
Defined.

(** X11: while every page carries a marker, discovery keeps asking: when
    the answers end after such pages it has sent one request per page and
    one more, and it hangs on that one instead of returning what it has
    found. *)
Theorem discovery_hangs_without_markerless_page
    (client : ClientConfig) (bucketName : string)
    (pages : list ListDistributionsCommandOutput) (w : World) :
  Forall hasMarker pages →
  listDistributionsResults w = Fulfilled <$> pages →
  let r := findDistributionsForBucket client bucketName w in
  outcome r = Never ∧ length (trace r) = S (length pages).
Proof.
  intros Hpages Hw. unfold findDistributionsForBucket.
  destruct (listLoop_stopped client bucketName pages [] Hpages I
              (S (length (listDistributionsResults w))) None [] w)
    as (Ho & _ & Ht).
  { rewrite Hw, length_fmap. lia. }
  { now rewrite app_nil_r. }
  cbv zeta in *. rewrite Ho, Ht. simpl. now rewrite length_fmap.
Qed.

Lemma discovery_hangs_witness :
  outcome (findDistributionsForBucket cdnClient "mybucket" endlessListingWorld)
  = Never.
Proof.
  exact (proj1 (discovery_hangs_without_markerless_page cdnClient "mybucket"
                  [firstPage; firstPage] endlessListingWorld
                  ltac:(repeat constructor; discriminate) eq_refl)).
Defined.

End MoreDiscoveryFacts.

(** ** Further properties of the runs of the deploy helper *)

Section MoreRunFacts.
Import Js Region CloudFront Async Deploy Observe Examples Expect.

Lemma invalidationPhase_outcome (client : ClientConfig) (ids : list string)
    (w : World) :
  outcome (invalidationPhase client ids w)
  = outcome (invalidateEach client ids w).
Proof. destruct ids; reflexivity. Qed.

(** A run whose configuration loads and whose sync is fulfilled ends as
    its discovery and its invalidation loop end. *)
Lemma deployWebsite_after_sync (options : DeployWebsiteOptions) (w : World)
    (configFiles : SharedConfigFiles) :
  sharedConfigFiles w = Fulfilled configFiles →
  syncResult w = Fulfilled () →
  let r := deployWebsite options w in
  let cfg := clientFor configFiles (processEnv w) (profile options) in
  let found := findDistributionsForBucket cfg (bucketName options) w in
  match outcome found with
  | Fulfilled ids =>
      outcome r = outcome (invalidateEach cfg ids (world found))
      ∧ invalidations (trace r)
        = invalidations (trace (invalidateEach cfg ids (world found)))
  | RejectedWith e => outcome r = RejectedWith e ∧ invalidations (trace r) = []
  | Never => outcome r = Never ∧ invalidations (trace r) = []
  end.
Proof.
  intros Hfiles Hsync r cfg found.
  pose proof (deployWebsite_run options w) as Hrun. cbv zeta in Hrun.
  rewrite Hfiles, Hsync in Hrun. fold r cfg found in Hrun.
  pose proof (listLoop_any_world cfg (bucketName options)
                (S (length (listDistributionsResults w))) None [] w)
    as [Hlisting _].
  change (listLoop _ cfg (bucketName options) None [] w) with found
    in Hlisting.
  apply invalidations_listing in Hlisting.
  destruct (outcome found) as [ids|e|]; destruct Hrun as [Ho Ht];
    rewrite Ho, Ht, invalidations_app; simpl;
    rewrite ?invalidations_app, Hlisting; try (split; reflexivity).
  destruct (invalidationPhase_trace cfg ids (world found)) as [line ->].
  split; [apply invalidationPhase_outcome | reflexivity].
Qed.

(** The invalidation loop when no request is refused. *)
Lemma invalidateEach_all_fulfilled (client : ClientConfig)
    (ids : list string) :
  ∀ w more,
    createInvalidationResults w
    = replicate (length ids) (Fulfilled ()) ++ more →
    let r := invalidateEach client ids w in
    outcome r = Fulfilled ()
    ∧ invalidations (trace r)
      = expectedRequests (clock w) (clockReads w) ids
    ∧ createInvalidationResults (world r) = more.
Proof.
  induction ids as [|id rest IH]; intros w more Hw.
  - simpl in *. auto.
  - cbv zeta. rewrite invalidateEach_round. cbv zeta.
    simpl in Hw. rewrite Hw. cbn [outcome world trace].
    destruct (IH (withInvalidationResults (world (dateNow w))
                    (replicate (length rest) (Fulfilled ()) ++ more)) more)
      as (Ho & Ht & Hm); [reflexivity|].
    cbv zeta in Ho, Ht, Hm. rewrite Ho, Hm.
    split; [reflexivity|]. split; [|reflexivity].
    change (invalidations (?ev :: ConsoleLog ?l :: ?tr))
      with (invalidations [ev] ++ invalidations tr).
    rewrite Ht. reflexivity.
Qed.

(** The invalidation loop when the request after [k] fulfilled ones is
    rejected. *)
Lemma invalidateEach_rejected (client : ClientConfig) (e : Error) (k : nat) :
  ∀ ids w more,
    k < length ids →
    createInvalidationResults w
    = replicate k (Fulfilled ()) ++ RejectedWith e :: more →
    let r := invalidateEach client ids w in
    outcome r = RejectedWith e
    ∧ invalidations (trace r)
      = expectedRequests (clock w) (clockReads w) (take (S k) ids).
Proof.
  induction k as [|k IH]; intros [|id rest] w more Hk Hw;
    try (simpl in Hk; lia);
    cbv zeta; rewrite invalidateEach_round; cbv zeta;
    simpl in Hw; rewrite Hw; cbn [outcome world trace].
  - split; reflexivity.
  - destruct (IH rest (withInvalidationResults (world (dateNow w))
                         (replicate k (Fulfilled ()) ++ RejectedWith e :: more))
                more) as (Ho & Ht); [simpl in Hk; lia | reflexivity |].
    cbv zeta in Ho, Ht. rewrite Ho. split; [reflexivity|].
    change (invalidations (?ev :: ConsoleLog ?l :: ?tr))
      with (invalidations [ev] ++ invalidations tr).
    rewrite Ht. reflexivity.
Qed.

(** X12: when the configuration loads, the sync is fulfilled, the listing
    is a chain of pages ended by a markerless one and no invalidation is
    refused, [deployWebsite] is fulfilled and has requested exactly one
    invalidation per discovered distribution, in the order of discovery,
    each tagged with the clock reading taken for it and its identifier. *)
Theorem deploy_invalidates_each_discovered_distribution
    (options : DeployWebsiteOptions) (w : World)
    (configFiles : SharedConfigFiles)
    (pages : list ListDistributionsCommandOutput)
    (last : ListDistributionsCommandOutput)
    (rest : list (Settled ListDistributionsCommandOutput))
    (more : list (Settled unit)) :
  sharedConfigFiles w = Fulfilled configFiles →
  syncResult w = Fulfilled () →
  Forall hasMarker pages →
  truthy (nextMarkerOf last) = None →
  listDistributionsResults w = (Fulfilled <$> pages ++ [last]) ++ rest →
  let ids := pagesIds (bucketName options) (pages ++ [last]) in
  createInvalidationResults w = replicate (length ids) (Fulfilled ()) ++ more →
  let r := deployWebsite options w in
  outcome r = Fulfilled ()
  ∧ invalidations (trace r) = expectedRequests (clock w) (clockReads w) ids.
Proof.
  intros Hfiles Hsync Hpages Hlast Hw ids Hinv r.
  pose proof (deployWebsite_after_sync options w configFiles Hfiles Hsync)
    as Hrun. cbv zeta in Hrun. fold r in Hrun.
  set (cfg := clientFor configFiles (processEnv w) (profile options)) in *.
  destruct (findDistributionsForBucket_chain cfg (bucketName options) pages
              last rest w Hpages Hlast Hw) as (Ho & Hwd & _).
  cbv zeta in Ho, Hwd. rewrite Ho, Hwd in Hrun. fold ids in Hrun.
  destruct Hrun as [Hout Htr]. rewrite Hout, Htr.
  destruct (invalidateEach_all_fulfilled cfg ids (withListResults w rest) more)
    as (H1 & H2 & _); [exact Hinv|].
  split; [exact H1 | exact H2].
Qed.

Lemma deploy_invalidates_each_witness :
  outcome (deployWebsite mybucketOptions twoPageWorld) = Fulfilled ()
  ∧ invalidations (trace (deployWebsite mybucketOptions twoPageWorld))
    = [("E1", "1700000000000-E1"); ("E3", "1700000000001-E3")].
Proof.
  exact (deploy_invalidates_each_discovered_distribution mybucketOptions
           twoPageWorld defaultProfileFiles [firstPage] lastPage []
           [Fulfilled ()] eq_refl eq_refl
           ltac:(repeat constructor; discriminate) eq_refl eq_refl eq_refl).
Defined.

(** X13: a rejected invalidation ends the run with that error: the
    distributions before it have been invalidated, the one it was for has
    been asked for, and none of the remaining ones is asked for. *)
Theorem rejected_invalidation_aborts_the_rest
    (options : DeployWebsiteOptions) (w : World)
    (configFiles : SharedConfigFiles)
    (pages : list ListDistributionsCommandOutput)
    (last : ListDistributionsCommandOutput)
    (rest : list (Settled ListDistributionsCommandOutput))
    (k : nat) (e : Error) (more : list (Settled unit)) :
  sharedConfigFiles w = Fulfilled configFiles →
  syncResult w = Fulfilled () →
  Forall hasMarker pages →
  truthy (nextMarkerOf last) = None →
  listDistributionsResults w = (Fulfilled <$> pages ++ [last]) ++ rest →
  let ids := pagesIds (bucketName options) (pages ++ [last]) in
  k < length ids →
  createInvalidationResults w
  = replicate k (Fulfilled ()) ++ RejectedWith e :: more →
  let r := deployWebsite options w in
  outcome r = RejectedWith e
  ∧ invalidations (trace r)
    = expectedRequests (clock w) (clockReads w) (take (S k) ids).
Proof.
  intros Hfiles Hsync Hpages Hlast Hw ids Hk Hinv r.
  pose proof (deployWebsite_after_sync options w configFiles Hfiles Hsync)
    as Hrun. cbv zeta in Hrun. fold r in Hrun.
  set (cfg := clientFor configFiles (processEnv w) (profile options)) in *.
  destruct (findDistributionsForBucket_chain cfg (bucketName options) pages
              last rest w Hpages Hlast Hw) as (Ho & Hwd & _).
  cbv zeta in Ho, Hwd. rewrite Ho, Hwd in Hrun. fold ids in Hrun.
  destruct Hrun as [Hout Htr]. rewrite Hout, Htr.
  exact (invalidateEach_rejected cfg e k ids (withListResults w rest) more
           Hk Hinv).
Qed.

Lemma rejected_invalidation_witness :
  outcome (deployWebsite mybucketOptions refusedInvalidationWorld)
  = RejectedWith (mkError "AccessDenied")
  ∧ invalidations (trace (deployWebsite mybucketOptions refusedInvalidationWorld))
    = [("E1", "1700000000000-E1")].
Proof.
  exact (rejected_invalidation_aborts_the_rest mybucketOptions
           refusedInvalidationWorld defaultProfileFiles [firstPage] lastPage []
           0 (mkError "AccessDenied") [Fulfilled ()] eq_refl eq_refl
           ltac:(repeat constructor; discriminate) eq_refl eq_refl
           ltac:(vm_compute; lia) eq_refl).
Defined.

(** X14: a rejected page request of the listing ends the run with that
    error as it is, not wrapped like a sync failure, and no invalidation is
    requested, not even for distributions found on earlier pages. *)
Theorem rejected_listing_aborts_without_invalidation
    (options : DeployWebsiteOptions) (w : World)
    (configFiles : SharedConfigFiles)
    (pages : list ListDistributionsCommandOutput) (e : Error)
    (rest : list (Settled ListDistributionsCommandOutput)) :
  sharedConfigFiles w = Fulfilled configFiles →
  syncResult w = Fulfilled () →
  Forall hasMarker pages →
  listDistributionsResults w = (Fulfilled <$> pages) ++ RejectedWith e :: rest →
  let r := deployWebsite options w in
  outcome r = RejectedWith e ∧ invalidations (trace r) = [].
Proof.
  intros Hfiles Hsync Hpages Hw r.
  pose proof (deployWebsite_after_sync options w configFiles Hfiles Hsync)
    as Hrun. cbv zeta in Hrun. fold r in Hrun.
  set (cfg := clientFor configFiles (processEnv w) (profile options)) in *.
  destruct (listLoop_stopped cfg (bucketName options) pages
              (RejectedWith e :: rest) Hpages I
              (S (length (listDistributionsResults w))) None [] w)
    as (Ho & _ & _); [|exact Hw|].
  { rewrite Hw, length_app, length_fmap. lia. }
  cbv zeta in Ho.
  change (listLoop _ cfg (bucketName options) None [] w)
    with (findDistributionsForBucket cfg (bucketName options) w) in Ho.
  rewrite Ho in Hrun. exact Hrun.
Qed.

Lemma rejected_listing_witness :
  outcome (deployWebsite mybucketOptions rejectedListingWorld)
  = RejectedWith (mkError "Throttling")
  ∧ invalidations (trace (deployWebsite mybucketOptions rejectedListingWorld))
    = [].
Proof.
  exact (rejected_listing_aborts_without_invalidation mybucketOptions
           rejectedListingWorld defaultProfileFiles [firstPage]
           (mkError "Throttling") [] eq_refl eq_refl
           ltac:(repeat constructor; discriminate) eq_refl).
Defined.

(** X15: when loading the shared configuration is rejected, the run is
    rejected with that error before anything else happens: no line is
    logged, nothing is synced, listed or invalidated. *)
Theorem rejected_configuration_stops_the_run
    (options : DeployWebsiteOptions) (w : World) (e : Error) :
  sharedConfigFiles w = RejectedWith e →
  let r := deployWebsite options w in
  outcome r = RejectedWith e ∧ trace r = [LoadSharedConfigFiles].
Proof.
  intros Hfiles r. pose proof (deployWebsite_run options w) as Hrun.
  cbv zeta in Hrun. rewrite Hfiles in Hrun. exact Hrun.
Qed.

Lemma rejected_configuration_witness :
  outcome (deployWebsite mybucketOptions brokenConfigWorld)
  = RejectedWith (mkError "Found invalid profile name")
  ∧ trace (deployWebsite mybucketOptions brokenConfigWorld)
    = [LoadSharedConfigFiles].
Proof.
  exact (rejected_configuration_stops_the_run mybucketOptions
           brokenConfigWorld (mkError "Found invalid profile name") eq_refl).
Defined.

Lemma invalidateEach_trace_forall (client : ClientConfig) (P : Event → Prop)
    (ids : list string) :
  (∀ line, P (ConsoleLog line)) →
  (∀ id t, P (CreateInvalidation client id (callerReference t id) 1 ["/*"])) →
  ∀ w, Forall P (trace (invalidateEach client ids w)).
Proof.
  intros Hlog Hinv. induction ids as [|id rest IH]; intros w.
  - constructor.
  - rewrite invalidateEach_round. cbv zeta.
    destruct (createInvalidationResults w) as [|[[]|e|] answers];
      cbn [outcome world trace]; repeat constructor; auto.
Qed.

(** Every event of a run is the configuration load, a log line, or a call
    through the one client configuration of the run. *)
Lemma deployWebsite_trace_forall (options : DeployWebsiteOptions)
    (w : World) (P : Event → Prop) :
  P LoadSharedConfigFiles →
  (∀ line, P (ConsoleLog line)) →
  (∀ configFiles,
     sharedConfigFiles w = Fulfilled configFiles →
     let cfg := clientFor configFiles (processEnv w) (profile options) in
     (∀ source target del result, P (Sync cfg source target del result))
     ∧ (∀ marker, P (ListDistributions cfg marker))
     ∧ (∀ id t,
          P (CreateInvalidation cfg id (callerReference t id) 1 ["/*"]))) →
  Forall P (trace (deployWebsite options w)).
Proof.
  intros Hload Hlog Hcalls.
  pose proof (deployWebsite_run options w) as Hrun. cbv zeta in Hrun.
  destruct (sharedConfigFiles w) as [configFiles|e|];
    [|destruct Hrun as [_ ->]; repeat constructor; exact Hload..].
  destruct (Hcalls configFiles eq_refl) as (Hsync & Hlist & Hinv).
  set (cfg := clientFor configFiles (processEnv w) (profile options)) in *.
  assert (Forall P (prologue options w configFiles)) as Hprologue.
  { unfold prologue. fold cfg. repeat constructor; auto. }
  assert (Forall P (trace (findDistributionsForBucket cfg
                             (bucketName options) w))) as Hfound.
  { pose proof (listLoop_any_world cfg (bucketName options)
                  (S (length (listDistributionsResults w))) None [] w)
      as [Hlisting _].
    eapply Forall_impl; [exact Hlisting|].
    intros [] [Hk Hc]; try discriminate. injection Hc as ->. apply Hlist. }
  destruct (syncResult w) as [[]|e|];
    [|destruct Hrun as [_ ->]; exact Hprologue..].
  destruct (outcome (findDistributionsForBucket cfg (bucketName options) w))
    as [ids|e|]; destruct Hrun as [_ ->];
    apply Forall_app; (split; [exact Hprologue|]);
    (constructor; [apply Hlog|]); try exact Hfound.
  apply Forall_app. split; [exact Hfound|].
  destruct (invalidationPhase_trace cfg ids
              (world (findDistributionsForBucket cfg (bucketName options) w)))
    as [line ->].
  constructor; [apply Hlog|]. now apply invalidateEach_trace_forall.
Qed.

(** X16: when [deployWebsite] is given a non-empty profile and the shared
    configuration loads, every call of the run through the S3 or the
    CloudFront client goes through a client built with the region resolved
    for that profile and with the ini credential provider of that
    profile. *)
Theorem named_profile_supplies_region_and_credentials
    (options : DeployWebsiteOptions) (w : World)
    (configFiles : SharedConfigFiles) (p : string) :
  profile options = Some p →
  p ≠ EmptyString →
  sharedConfigFiles w = Fulfilled configFiles →
  let cfg := {| region := resolveRegion configFiles (processEnv w) p;
                credentials := Some (fromIni p) |} in
  Forall (λ ev, ∀ c, eventClient ev = Some c → c = cfg)
    (trace (deployWebsite options w)).
Proof.
  intros Hprofile Hp Hfiles cfg.
  apply deployWebsite_trace_forall; try discriminate.
  intros files' Hfiles'. rewrite Hfiles in Hfiles'.
  injection Hfiles' as <-. rewrite Hprofile.
  assert (clientFor configFiles (processEnv w) (Some p) = cfg) as ->.
  { unfold clientFor, cfg. simpl. destruct p; [contradiction | reflexivity]. }
  cbv zeta. repeat split; intros; simpl in *; congruence.
Qed.

Lemma named_profile_witness :
  Forall (λ ev, ∀ c, eventClient ev = Some c →
                c = {| region := resolveRegion defaultProfileFiles westEnv "dev";
                       credentials := Some (fromIni "dev") |})
    (trace (deployWebsite devOptions twoPageWorld)).
Proof.
  apply (named_profile_supplies_region_and_credentials devOptions twoPageWorld
           defaultProfileFiles "dev"); [reflexivity | discriminate | reflexivity].
Defined.

(** X17: in every run of [deployWebsite], whatever the collaborators
    answer, each invalidation request asks for the single path ["/*"]
    with a path count of 1. *)
Theorem every_invalidation_covers_all_paths
    (options : DeployWebsiteOptions) (w : World) :
  Forall isFullPath (trace (deployWebsite options w)).
Proof.
  apply deployWebsite_trace_forall; simpl; auto.
Qed.

End MoreRunFacts.

(** ** The redirect function and the names of the stack *)

Section StackFacts.
Import Js BucketName Redirect Stack Expect.

Lemma www_differs_from_apex (domainName : string) :
  "www." +:+ domainName ≠ domainName.
Proof.
  intros H. apply (f_equal String.length) in H.
  rewrite length_append in H. simpl in H. lia.
Qed.

(** X18: the generated viewer-request function answers a request for the
    [www] host with a 301 to the same URI on the apex host, forwards every
    other request unchanged, and forwards in particular the request for
    the apex host: following its redirect never leads to another one. *)
Theorem www_is_redirected_once (domainName : string)
    (f : ViewerRequest → HandlerResult) :
  generatedHandler domainName = Some f →
  ∀ request,
    (host request = "www." +:+ domainName
     ∧ f request
       = Respond {| statusCode := 301;
                    statusDescription := "Moved Permanently";
                    location := "https://" +:+ domainName +:+ uri request |}
     ∧ f {| method := method request; uri := uri request;
            querystring := querystring request; host := domainName;
            otherHeaders := otherHeaders request |}
       = Forward {| method := method request; uri := uri request;
                    querystring := querystring request; host := domainName;
                    otherHeaders := otherHeaders request |})
    ∨ (host request ≠ "www." +:+ domainName ∧ f request = Forward request).
Proof.
  unfold generatedHandler. destruct (literalSafe domainName); [|discriminate].
  intros [= <-] request. unfold handler.
  destruct (decide (host request = "www." +:+ domainName)) as [Hwww|Hother].
  - left. split; [exact Hwww|]. split; [reflexivity|].
    cbn [host]. destruct (decide (domainName = "www." +:+ domainName)) as [E|_];
      [|reflexivity].
    symmetry in E. now apply www_differs_from_apex in E.
  - right. now split.
Qed.

Lemma www_is_redirected_witness :
  handler "example.com" wwwRequest
  = Respond {| statusCode := 301;
               statusDescription := "Moved Permanently";
               location := "https://example.com/docs/index.html" |}.
Proof.
  destruct (www_is_redirected_once "example.com" (handler "example.com")
              eq_refl wwwRequest) as [(_ & H & _)|[H _]].
  - exact H.
  - exfalso. apply H. reflexivity.
Defined.

Lemma newPlatformStack_inv (props : PlatformStackProps)
    (stack : PlatformStack) :
  newPlatformStack props = Return stack →
  ∃ name,
    getWebsiteBucketName (domain props) = Return name
    ∧ websiteBucketName stack = name
    ∧ zoneName stack = domain props
    ∧ certificateDomainName stack = domain props
    ∧ subjectAlternativeNames stack = ["www." +:+ domain props]
    ∧ distributionDomainNames stack
      = [domain props; "www." +:+ domain props]
    ∧ aliasRecordNames stack = [domain props; "www." +:+ domain props]
    ∧ redirectFunction stack = generatedHandler (domain props)
    ∧ (exportName <$> outputs stack)
      = (String.append (project props)
         <$> ["-NameServers"; "-HostedZoneId"; "-WebsiteURL"; "-WwwWebsiteURL";
              "-DistributionId"; "-CloudFrontDomain"; "-WebsiteBucket"])
    ∧ (outputId <$> outputs stack)
      = ["Step1NameServers"; "Step2HostedZoneId"; "WebsiteURL";
         "WwwWebsiteURL"; "CloudFrontDistributionId"; "CloudFrontDomainName";
         "S3BucketName"].
Proof.
  unfold newPlatformStack. cbv zeta.
  destruct (getWebsiteBucketName (domain props)) as [name|e]; [|discriminate].
  intros [= <-]. exists name. cbn. repeat split; reflexivity.
Qed.

(** X19: for every project name, the seven outputs of a constructed stack
    carry pairwise distinct export names, and pairwise distinct
    identifiers. *)
Theorem stack_export_names_are_distinct (props : PlatformStackProps)
    (stack : PlatformStack) :
  newPlatformStack props = Return stack →
  length (outputs stack) = 7
  ∧ NoDup (exportName <$> outputs stack)
  ∧ NoDup (outputId <$> outputs stack).
Proof.
  intros H.
  destruct (newPlatformStack_inv props stack H)
    as (name & _ & _ & _ & _ & _ & _ & _ & _ & Hexports & Hids).
  split; [|split].
  - rewrite <- (length_fmap outputId), Hids. reflexivity.
  - rewrite Hexports. apply (NoDup_fmap_2 (String.append (project props))).
    apply (bool_decide_unpack _). vm_compute. exact I.
  - rewrite Hids. apply (bool_decide_unpack _). vm_compute. exact I.
Qed.

Lemma stack_export_names_witness :
  ∃ stack,
    newPlatformStack exampleProps = Return stack
    ∧ NoDup (exportName <$> outputs stack).
Proof.
  destruct (newPlatformStack exampleProps) as [stack|e] eqn:H;
    [|vm_compute in H; discriminate].
  exists stack. split; [reflexivity|].
  exact (proj1 (proj2 (stack_export_names_are_distinct exampleProps stack H))).
Defined.

(** X20: in a constructed stack the names the distribution answers for,
    the names of the certificate and the names of the alias records are
    the same two distinct names, the domain and its [www] host, in the
    hosted zone of the domain; and when the domain holds no quote,
    backslash or line terminator, the stack has a redirect function, which
    forwards the requests for the first name and redirects the requests
    for the second to the first. *)
Theorem stack_names_agree (props : PlatformStackProps)
    (stack : PlatformStack) :
  newPlatformStack props = Return stack →
  distributionDomainNames stack
  = certificateDomainName stack :: subjectAlternativeNames stack
  ∧ distributionDomainNames stack = [domain props; "www." +:+ domain props]
  ∧ aliasRecordNames stack = distributionDomainNames stack
  ∧ NoDup (distributionDomainNames stack)
  ∧ zoneName stack = domain props
  ∧ (literalSafe (domain props) = true →
     ∃ f,
       redirectFunction stack = Some f
       ∧ ∀ request,
           (host request = domain props → f request = Forward request)
           ∧ (host request = "www." +:+ domain props →
              f request
              = Respond {| statusCode := 301;
                           statusDescription := "Moved Permanently";
                           location := "https://" +:+ domain props
                                       +:+ uri request |})).
Proof.
  intros H.
  destruct (newPlatformStack_inv props stack H)
    as (name & _ & _ & Hzone & Hcert & Hsan & Hdist & Halias & Hfun & _).
  rewrite Hzone, Hcert, Hsan, Hdist, Halias, Hfun.
  split; [reflexivity|]. split; [reflexivity|]. split; [reflexivity|].
  split.
  { apply NoDup_cons. split; [|apply NoDup_singleton].
    rewrite list_elem_of_singleton. intros E. symmetry in E.
    now apply www_differs_from_apex in E. }
  split; [reflexivity|].
  intros Hsafe. unfold generatedHandler. rewrite Hsafe.
  eexists. split; [reflexivity|].
  intros request. unfold handler. split; intros Hhost.
  - destruct (decide _) as [E|_]; [|reflexivity].
    rewrite Hhost in E. symmetry in E. now apply www_differs_from_apex in E.
  - destruct (decide _) as [_|E]; [reflexivity | contradiction].
Qed.

Lemma stack_names_witness :
  ∃ stack,
    newPlatformStack exampleProps = Return stack
    ∧ NoDup (distributionDomainNames stack)
    ∧ ∃ f,
        redirectFunction stack = Some f
        ∧ f wwwRequest
          = Respond {| statusCode := 301;
                       statusDescription := "Moved Permanently";
                       location := "https://example.com/docs/index.html" |}.
Proof.
  destruct (newPlatformStack exampleProps) as [stack|e] eqn:H;
    [|vm_compute in H; discriminate].
  exists stack. split; [reflexivity|].
  destruct (stack_names_agree exampleProps stack H)
    as (_ & _ & _ & Hnodup & _ & Hfun).
  split; [exact Hnodup|].
  destruct (Hfun eq_refl) as (f & Hf & Hreq).
  exists f. split; [exact Hf|].
  exact (proj2 (Hreq wwwRequest) eq_refl).
Defined.

End StackFacts.
